(** * Dfyn TVL adapter and the SDK's chunked POST: a shallow embedding

    Two source files are modelled.

    - [sdk/api.js]: [maybePreSerializeAxiosError] and [POST], the function
      every SDK endpoint goes through.  When the options carry a [chunk]
      configuration and the batched list is longer than the configured
      length, [POST] splits the list with underscore's [_.chunk], sends
      every piece through a Bottleneck limiter and combines the answers.
    - the Dfyn adapter ([tvl]): pair discovery on the factory, filtering by
      the supported tokens, and the balance calls sent in pieces of 2500.

    JavaScript promises are modelled by a writer/error monad: a computation
    yields a settled value (fulfilled or rejected) together with the list of
    HTTP requests it has issued by the time it settles.  The progress bar
    and the console output of [POST] are left out. *)

From Stdlib Require Import Ascii ZArith Lia.
From stdpp Require Import base strings gmap list.

Open Scope string_scope.
Open Scope list_scope.
Open Scope nat_scope.

(** ** JavaScript strings *)

(** [String.prototype.toLowerCase] on the code units 'A'..'Z'; the strings
    handled by the adapter are hexadecimal addresses. *)
Definition ascii_toLowerCase (c : ascii) : ascii :=
  let n := nat_of_ascii c in
  if (65 <=? n) && (n <=? 90) then ascii_of_nat (n + 32) else c.

Fixpoint toLowerCase (s : string) : string :=
  match s with
  | EmptyString => EmptyString
  | String c s' => String (ascii_toLowerCase c) (toLowerCase s')
  end.

(** Truthiness of a string: every string but the empty one. *)
Definition truthy_string (s : string) : bool :=
  match s with EmptyString => false | _ => true end.

(** [Array.prototype.includes] on an array of strings. *)
Definition includes (arr : list string) (x : string) : bool :=
  existsb (String.eqb x) arr.

(** ** Data *)

(** The [params] of a call descriptor: absent (token0/token1 reads),
    [[num]] (factory.allPairs) or a pair address (erc20:balanceOf). *)
Inductive Params :=
| ParamsUndefined
| ParamsIndex (num : nat)
| ParamsAddress (pair : string).

Record Call := { target : string; params : Params }.

(** Balance values: the service reports decimal strings, the adapter's
    fallback entry is the number 0. *)
Inductive BalanceValue :=
| BNumber (n : Z)
| BString (s : string).

(** The [output] property of a response. *)
#[warnings="-register-all"]
Inductive Output :=
| OUndefined
| ONull
| OString (s : string)
| OResult (output : Output)      (* one multiCall element: { input, success, output } *)
| OArray (xs : list Output)
| OBalances (b : gmap string BalanceValue).

(** An element of the supportedTokens answer; [platforms] maps a chain
    name to the token's address on that chain. *)
Record Token := { platforms : option (gmap string string) }.

Record Result := { ethCallCount : option Z; output : Output }.

(** [response.data]: a bare array of tokens (util/supportedTokens) or an
    object with [ethCallCount] and [output]. *)
Inductive Data :=
| DTokens (ts : list Token)
| DResult (r : Result).

(** Property reads on [response.data]; an array has neither property. *)
Definition data_ethCallCount (d : Data) : option Z :=
  match d with DResult r => ethCallCount r | DTokens _ => None end.

Definition data_output (d : Data) : Output :=
  match d with DResult r => output r | DTokens _ => OUndefined end.

(** Truthiness of [call.ethCallCount]: [undefined] and [0] are falsy. *)
Definition truthy_count (c : option Z) : bool :=
  match c with
  | Some n => negb (n =? 0)%Z
  | None => false
  end.

(** A JavaScript error object.  An axios error carries [response], [config]
    and [request]; objects are finite maps from property names to values. *)
Record JsError := {
  name : string;
  message : string;
  response : option (gmap string string);
  config : option (gmap string string);
  request : option string;
}.

Definition TypeError (msg : string) : JsError :=
  {| name := "TypeError"; message := msg;
     response := None; config := None; request := None |}.

Definition RangeError (msg : string) : JsError :=
  {| name := "RangeError"; message := msg;
     response := None; config := None; request := None |}.

Definition Error (msg : string) : JsError :=
  {| name := "Error"; message := msg;
     response := None; config := None; request := None |}.

(** [{ param, length, combine }] *)
Record ChunkConfig := {
  chunk_param : string;
  chunk_length : Z;
  chunk_combine : string;
}.

(** The options object of an endpoint.  [batch] is the array
    [options[options.chunk.param]] ('calls' for multiCall, 'targets' for the
    cdp endpoints); [None] when the property is absent. *)
Record Options := {
  opt_target : option string;
  opt_abi : option string;
  opt_chain : option string;
  opt_block : option Z;
  batch : option (list Call);
  chunk : option ChunkConfig;
}.

(** [opts[options.chunk.param] = chunk] on a copy of the options. *)
Definition set_batch (o : Options) (l : list Call) : Options :=
  {| opt_target := opt_target o; opt_abi := opt_abi o; opt_chain := opt_chain o;
     opt_block := opt_block o; batch := Some l; chunk := chunk o |}.

(** [process.env] *)
Record Env := {
  DEFIPULSE_API_URL : option string;
  DEFIPULSE_KEY : option string;
  INFURA_KEY : option string;
  ADAPTER_CONCURRENCY : option positive;
}.

(** One HTTP request: the url and the posted body. *)
Definition Request : Type := string * option Options.

(** ** Promises *)

Inductive Res (A : Type) :=
| Ok (a : A)
| Throw (e : JsError).
Arguments Ok {A} a.
Arguments Throw {A} e.

(** A computation: [None] when the recursion budget of the model is
    exhausted, otherwise the settled value and the requests issued. *)
Definition M (A : Type) : Type := option (Res A * list Request).

Definition ret {A} (a : A) : M A := Some (Ok a, []).
Definition throw {A} (e : JsError) : M A := Some (Throw e, []).
Definition lift {A} (r : Res A) : M A := Some (r, []).

Definition bind {A B} (m : M A) (f : A → M B) : M B :=
  match m with
  | None => None
  | Some (Throw e, log) => Some (Throw e, log)
  | Some (Ok a, log) =>
      match f a with
      | None => None
      | Some (r, log') => Some (r, log ++ log')
      end
  end.

(** [try { m } catch (error) { h error }] *)
Definition try_catch {A} (m : M A) (h : JsError → M A) : M A :=
  match m with
  | Some (Throw e, log) =>
      match h e with
      | None => None
      | Some (r, log') => Some (r, log ++ log')
      end
  | _ => m
  end.

(** Running a promise to settlement without propagating its rejection. *)
Definition attempt {A} (m : M A) : M (Res A) :=
  match m with
  | None => None
  | Some (r, log) => Some (Ok r, log)
  end.

(** The computations form a monad in stdpp's sense, which gives the
    notation [x ← m; k]. *)
#[global] Instance M_ret : MRet M := @ret.
#[global] Instance M_bind : MBind M := λ A B f m, bind m f.

(** The settled value and the request log of a finished computation. *)
Definition settled {A} (m : M A) : option (Res A) := fst <$> m.
Definition requests {A} (m : M A) : option (list Request) := snd <$> m.

(** ** underscore *)

(** [Array.prototype.slice(begin, end)] for [0 <= begin <= end]. *)
Definition slice {A} (arr : list A) (begin end_ : nat) : list A :=
  take (end_ - begin) (drop begin arr).

(** The loop of [_.chunk]:
    [while (i < length) result.push(slice.call(array, i, i += count))]. *)
Fixpoint chunk_loop {A} (fuel : nat) (array : list A) (count i : nat)
    (result : list (list A)) : list (list A) :=
  match fuel with
  | 0 => result
  | S fuel' =>
      if i <? length array
      then chunk_loop fuel' array count (i + count)
             (result ++ [slice array i (i + count)])
      else result
  end.

(** [_.chunk(array, count)]: [[]] when [count < 1].  The loop advances by
    [count >= 1] at every turn, so [length array] turns are enough
    (see [chunk_loop_enough]). *)
Definition _chunk {A} (array : list A) (count : Z) : list (list A) :=
  if (count <? 1)%Z then []
  else chunk_loop (length array) array (Z.to_nat count) 0 [].

(** [_.pick(obj, keys)]: the properties of [obj] named in [keys];
    [{}] when [obj] is [undefined]. *)
Definition _pick (obj : option (gmap string string)) (keys : list string)
    : gmap string string :=
  filter (λ kv, includes keys kv.1 = true) (default ∅ obj).

(** ** sdk/api.js *)

Definition maybePreSerializeAxiosError (error : JsError) : JsError :=
  match response error with
  | None => error
  | Some _ =>
      {| name := name error;
         message := message error;
         response := Some (_pick (response error) ["status"; "statusText"; "data"]);
         config := Some (_pick (config error) ["method"; "url"; "data"]);
         request := None |}
  end.

(** The three variables of the chunking branch of [POST]. *)
Record Progress := {
  st_ethCallCount : Z;
  st_output : list Output;
  st_complete : nat;
}.

(** Spreading [...call.output] into an array literal: arrays and strings
    are iterable, anything else raises a TypeError. *)
Definition spread (o : Output) : Res (list Output) :=
  match o with
  | OArray xs => Ok xs
  | OString s => Ok ((λ c, OString (String c EmptyString)) <$> String.list_ascii_of_string s)
  | _ => Throw (TypeError "call.output is not iterable")
  end.

(** The body of [processRequest] after [await POST(endpoint, opts)]. *)
Definition processRequest (c : ChunkConfig) (call : Data) (st : Progress)
    : Res Progress :=
  let complete := S (st_complete st) in
  if truthy_count (data_ethCallCount call) then
    let ethCallCount :=
      (st_ethCallCount st + default 0 (data_ethCallCount call))%Z in
    if String.eqb (chunk_combine c) "array" then
      match spread (data_output call) with
      | Ok xs =>
          Ok {| st_ethCallCount := ethCallCount;
                st_output := st_output st ++ xs;
                st_complete := complete |}
      | Throw e => Throw e
      end
    else if String.eqb (chunk_combine c) "balances" then
      Ok {| st_ethCallCount := ethCallCount;
            st_output := st_output st ++ [data_output call];
            st_complete := complete |}
    else
      Ok {| st_ethCallCount := ethCallCount;
            st_output := st_output st;
            st_complete := complete |}
  else
    Ok {| st_ethCallCount := st_ethCallCount st;
          st_output := st_output st;
          st_complete := complete |}.

(** The guard of [POST]:
    [options && options.chunk && options[options.chunk.param].length > options.chunk.length].
    Reading [.length] of an absent list raises a TypeError. *)
Definition chunking (options : option Options)
    : Res (option (Options * ChunkConfig * list Call)) :=
  match options with
  | None => Ok None
  | Some o =>
      match chunk o with
      | None => Ok None
      | Some c =>
          match batch o with
          | None => Throw (TypeError "Cannot read properties of undefined (reading 'length')")
          | Some l =>
              if (chunk_length c <? Z.of_nat (length l))%Z
              then Ok (Some (o, c, l))
              else Ok None
          end
      end
  end.

Section Api.

(** The process environment, the remote service reached by [axios.post]
    (as a function of the request), the order in which the jobs running
    in the limiter finish (at the [t]-th completion the job at position
    [pick t mod r] among the [r] running ones settles), and
    [utility.sum] of sdk/util.js. *)
Variable env : Env.
Variable axios_post : string → option Options → Res Data.
Variable pick : nat → nat.
Variable utility_sum : list Output → Output.

(** A template literal prints an unset variable as "undefined". *)
Definition template (v : option string) : string := default "undefined" v.

Definition post_url (endpoint : string) : string :=
  let url :=
    template (DEFIPULSE_API_URL env) +:+ "/" +:+ template (DEFIPULSE_KEY env) +:+ endpoint in
  match INFURA_KEY env with
  | Some k => if truthy_string k then url +:+ "?infura-key=" +:+ k else url
  | None => url
  end.

(** [await axios.post(url, options)]: one request, settled by the service. *)
Definition axios_post_request (url : string) (options : option Options) : M Data :=
  Some (axios_post url options, [(url, options)]).

(** [process.env.ADAPTER_CONCURRENCY || 1] *)
Definition maxConcurrent : nat :=
  match ADAPTER_CONCURRENCY env with
  | Some k => Pos.to_nat k
  | None => 1
  end.

Section Limiter.

(** The recursive call [POST(endpoint, opts)] on one chunk, and the chunk
    configuration read by [processRequest]. *)
Variable post : list Call → M Data.
Variable cfg : ChunkConfig.

(** The limiter starts the next queued job: its request goes out and the
    job joins the running ones with the value it will settle to. *)
Definition start_next (queued : list (nat * list Call)) (running : list (nat * Res Data))
    : M (list (nat * list Call) * list (nat * Res Data)) :=
  match queued with
  | [] => mret ([], running)
  | (i, c) :: queued' =>
      r ← attempt (post c);
      mret (queued', running ++ [(i, r)])
  end.

(** Starting up to [k] jobs. *)
Fixpoint start_many (k : nat) (queued : list (nat * list Call))
    (running : list (nat * Res Data))
    : M (list (nat * list Call) * list (nat * Res Data)) :=
  match k with
  | 0 => mret (queued, running)
  | S k' =>
      '(queued', running') ← start_next queued running;
      start_many k' queued' running'
  end.

(** [Promise.all] over the scheduled jobs: at every turn one running job
    settles.  A rejection rejects the whole; otherwise the rest of
    [processRequest] runs, the job is done and the limiter starts the
    next queued one. *)
Fixpoint run_jobs (turns t : nat) (queued : list (nat * list Call))
    (running : list (nat * Res Data)) (st : Progress) : M Progress :=
  match turns with
  | 0 => mret st
  | S turns' =>
      let k := pick t `mod` length running in
      match running !! k with
      | None => mret st
      | Some (_, r) =>
          call ← lift r;
          st' ← lift (processRequest cfg call st);
          '(queued', running') ← start_next queued (delete k running);
          run_jobs turns' (S t) queued' running' st'
      end
  end.

(** [await Promise.all(_.map(chunks, chunk => limiter.schedule(...)))] *)
Definition schedule_all (chunks : list (list Call)) : M Progress :=
  '(queued, running) ← start_many maxConcurrent (imap (λ i c, (i, c)) chunks) [];
  run_jobs (length chunks) 0 queued running
    {| st_ethCallCount := 0; st_output := []; st_complete := 0 |}.

End Limiter.

(** [POST(endpoint, options)].  [fuel] bounds the depth of the recursion;
    [POST_fuel_enough] shows that depth 2 is always enough. *)
Fixpoint POST_fuel (fuel : nat) (endpoint : string) (options : option Options)
    : M Data :=
  match fuel with
  | 0 => None
  | S fuel' =>
      try_catch
        (branch ← lift (chunking options);
         match branch with
         | Some (o, c, l) =>
             let chunks := _chunk l (chunk_length c) in
             st ← schedule_all
                    (λ chunk, POST_fuel fuel' endpoint (Some (set_batch o chunk)))
                    c chunks;
             let output :=
               if String.eqb (chunk_combine c) "balances"
               then utility_sum (st_output st)
               else OArray (st_output st) in
             mret (DResult {| ethCallCount := Some (st_ethCallCount st);
                              output := output |})
         | None =>
             axios_post_request (post_url endpoint) options
         end)
        (λ error, throw (maybePreSerializeAxiosError error))
  end.

Definition POST (endpoint : string) (options : option Options) : M Data :=
  POST_fuel 2 endpoint options.

(** What the chunking branch hands back once [Promise.all] has settled. *)
Definition combined (c : ChunkConfig) (r : Res Progress) : Res Data :=
  match r with
  | Ok st =>
      Ok (DResult {| ethCallCount := Some (st_ethCallCount st);
                     output := if String.eqb (chunk_combine c) "balances"
                               then utility_sum (st_output st)
                               else OArray (st_output st) |})
  | Throw e => Throw (maybePreSerializeAxiosError e)
  end.

(** What one request settles to: the service's answer, a failure being
    rethrown by the [catch] of [POST]. *)
Definition answer (endpoint : string) (options : option Options) : Res Data :=
  match axios_post (post_url endpoint) options with
  | Ok d => Ok d
  | Throw error => Throw (maybePreSerializeAxiosError error)
  end.

End Api.

(** ** The Dfyn adapter *)

Definition FACTORY : string := "0xe7fb3e833efe5f9c441105eb65ef8b261266423b".

Definition ZERO_ADDRESS : string := "0x0000000000000000000000000000000000000000".

(** [{ token0Address?, token1Address? }], the value stored in [tokenPairs]. *)
Record PairRecord := {
  token0Address : option string;
  token1Address : option string;
}.

(** A JavaScript object with string keys, in insertion order (the keys of
    [tokenPairs] are addresses, never array indices). *)
Definition JsObject (V : Type) : Type := list (string * V).

(** [obj[key] = v]: an existing key keeps its place. *)
Fixpoint obj_set {V} (obj : JsObject V) (key : string) (v : V) : JsObject V :=
  match obj with
  | [] => [(key, v)]
  | (k, w) :: obj' =>
      if String.eqb k key then (k, v) :: obj' else (k, w) :: obj_set obj' key v
  end.

(** [obj[key]] *)
Fixpoint obj_get {V} (obj : JsObject V) (key : string) : option V :=
  match obj with
  | [] => None
  | (k, w) :: obj' => if String.eqb k key then Some w else obj_get obj' key
  end.

Definition obj_keys {V} (obj : JsObject V) : list string := fst <$> obj.

(** [arr[i]] used as a property key: [undefined] prints as "undefined". *)
Definition key_at (arr : list string) (i : nat) : string :=
  default "undefined" (arr !! i).

(** [result.output.toLowerCase()] on one multiCall element. *)
Definition output_toLowerCase (result : Output) : Res string :=
  match result with
  | OResult (OString s) => Ok (toLowerCase s)
  | OResult OUndefined | OResult ONull | OUndefined | ONull =>
      Throw (TypeError "Cannot read properties of undefined (reading 'toLowerCase')")
  | _ => Throw (TypeError "result.output.toLowerCase is not a function")
  end.

(** The receiver of [.map] / [.forEach] must be an array. *)
Definition as_array (o : Output) : Res (list Output) :=
  match o with
  | OArray xs => Ok xs
  | OUndefined | ONull => Throw (TypeError "Cannot read properties of undefined")
  | _ => Throw (TypeError "not a function")
  end.

(** [arr.map(f)] for a callback that may throw. *)
Fixpoint map_res {A B} (f : A → Res B) (arr : list A) : Res (list B) :=
  match arr with
  | [] => Ok []
  | x :: arr' =>
      match f x with
      | Throw e => Throw e
      | Ok y =>
          match map_res f arr' with
          | Throw e => Throw e
          | Ok ys => Ok (y :: ys)
          end
      end
  end.

(** [arr.forEach((x, i) => ...)] for a callback that updates [acc] and may
    throw; [i] is the index of the first element of [arr]. *)
Fixpoint forEach_res {A T} (f : T → A → nat → Res T) (arr : list A) (i : nat) (acc : T)
    : Res T :=
  match arr with
  | [] => Ok acc
  | x :: arr' =>
      match f acc x i with
      | Throw e => Throw e
      | Ok acc' => forEach_res f arr' (S i) acc'
      end
  end.

(** The callback of [supportedTokens.map]: the polygon address when the
    token has one, [undefined] otherwise. *)
Definition polygon_pos (token : Token) : option string :=
  match platforms token with
  | Some p =>
      match p !! "polygon-pos" with
      | Some a => if truthy_string a then Some a else None
      | None => None
      end
  | None => None
  end.

(** [supportedTokens.filter(token => token)] *)
Definition filter_truthy (arr : list (option string)) : list string :=
  omap (λ t, match t with
             | Some a => if truthy_string a then Some a else None
             | None => None
             end) arr.

(** The callback of [token0Addresses.forEach]. *)
Definition add_token0 (supportedTokens pairAddresses : list string)
    (tokenPairs : JsObject PairRecord) (token0Address : Output) (i : nat)
    : Res (JsObject PairRecord) :=
  match output_toLowerCase token0Address with
  | Throw e => Throw e
  | Ok lower =>
      if includes supportedTokens lower then
        let pairAddress := key_at pairAddresses i in
        Ok (obj_set tokenPairs pairAddress
              {| token0Address := Some lower; token1Address := None |})
      else Ok tokenPairs
  end.

(** [...(pairs[pairAddress] || {})]: [pairs] is the array answered by the
    factory, read at a string key.  Whatever the key selects (nothing for
    an address, an element [{ input, success, output }] for an index), it
    has no [token0Address] and no [token1Address] property. *)
Definition spread_pairs_entry (pairs : list Output) (pairAddress : string)
    : PairRecord :=
  {| token0Address := None; token1Address := None |}.

(** The callback of [token1Addresses.forEach]. *)
Definition add_token1 (supportedTokens pairAddresses : list string) (pairs : list Output)
    (tokenPairs : JsObject PairRecord) (token1Address : Output) (i : nat)
    : Res (JsObject PairRecord) :=
  match output_toLowerCase token1Address with
  | Throw e => Throw e
  | Ok lower =>
      if includes supportedTokens lower then
        let pairAddress := key_at pairAddresses i in
        Ok (obj_set tokenPairs pairAddress
              {| token0Address := token0Address (spread_pairs_entry pairs pairAddress);
                 token1Address := Some lower |})
      else Ok tokenPairs
  end.

(** Lines 74-94: both passes over the token reads. *)
Definition build_tokenPairs (supportedTokens pairAddresses : list string)
    (pairs : list Output) (token0Addresses token1Addresses : Output)
    : Res (JsObject PairRecord) :=
  match as_array token0Addresses with
  | Throw e => Throw e
  | Ok token0s =>
      match forEach_res (add_token0 supportedTokens pairAddresses) token0s 0 [] with
      | Throw e => Throw e
      | Ok tokenPairs =>
          match as_array token1Addresses with
          | Throw e => Throw e
          | Ok token1s =>
              forEach_res (add_token1 supportedTokens pairAddresses pairs) token1s 0
                tokenPairs
          end
      end
  end.

Definition truthy_field (f : option string) : bool :=
  match f with Some a => truthy_string a | None => false end.

(** Lines 96-112: the balance calls, in the key order of [tokenPairs]. *)
Definition build_balanceCalls (tokenPairs : JsObject PairRecord) : list Call :=
  flat_map (λ pair,
    match obj_get tokenPairs pair with
    | None => []
    | Some rec =>
        (if truthy_field (token0Address rec)
         then [{| target := default "" (token0Address rec); params := ParamsAddress pair |}]
         else [])
        ++
        (if truthy_field (token1Address rec)
         then [{| target := default "" (token1Address rec); params := ParamsAddress pair |}]
         else [])
    end) (obj_keys tokenPairs).

(** [arr[idx] = v] on an array of arrays: in range it overwrites, at the end
    it appends, beyond the end it leaves holes. *)
Definition array_assign {A} (arr : list (list A)) (idx : nat) (v : list A)
    : list (list A) :=
  if idx <? length arr then <[idx := v]> arr
  else arr ++ replicate (idx - length arr) [] ++ [v].

(** Lines 116-119:
    [for (let i = 0, j = balanceCalls.length, count = 0; i < j; i += chunk, count++)
       balanceCallChunks[count] = balanceCalls.slice(i, i + chunk);] *)
Fixpoint balanceCallChunks_loop {A} (fuel : nat) (balanceCalls : list A)
    (chunk i count : nat) (balanceCallChunks : list (list A)) : list (list A) :=
  match fuel with
  | 0 => balanceCallChunks
  | S fuel' =>
      if i <? length balanceCalls
      then balanceCallChunks_loop fuel' balanceCalls chunk (i + chunk) (S count)
             (array_assign balanceCallChunks count (slice balanceCalls i (i + chunk)))
      else balanceCallChunks
  end.

Definition make_balanceCallChunks {A} (chunk : nat) (balanceCalls : list A)
    : list (list A) :=
  balanceCallChunks_loop (length balanceCalls) balanceCalls chunk 0 0 [].

(** [assert.equal(actual, expected)] on two lengths. *)
Definition assert_equal (actual expected : nat) : Res unit :=
  if actual =? expected then Ok ()
  else Throw {| name := "AssertionError"; message := "assert.equal";
                response := None; config := None; request := None |}.

(** Lines 120-124: the sum of the chunk lengths, by [map] and [reduce]. *)
Definition summed_lengths {A} (chunks : list (list A)) : nat :=
  foldl (λ accumulator value, accumulator + value) 0 (length <$> chunks).

(** Lines 137-143. *)
Definition or_zero_address (balances : gmap string BalanceValue)
    : gmap string BalanceValue :=
  if length (map_to_list balances).*1 =? 0
  then {[ ZERO_ADDRESS := BNumber 0 ]}
  else balances.

(** The options of the factory read: [{ target: FACTORY,
    abi: factoryAbi.allPairsLength, chain: 'polygon', block }]. *)
Definition allPairsLength_options (block : option Z) : Options :=
  {| opt_target := Some FACTORY; opt_abi := Some "allPairsLength";
     opt_chain := Some "polygon"; opt_block := block;
     batch := None; chunk := None |}.

Section Adapter.

(** Besides the variables of [POST]: [sdk.util.sumMultiBalanceOf] of
    sdk/util.js, which updates [balances] with one multiCall answer, and
    the length that [Array(Number(pairLength))] gives the new array
    ([None] when [Number(pairLength)] is not a valid array length). *)
Variable env : Env.
Variable axios_post : string → option Options → Res Data.
Variable pick : nat → nat.
Variable utility_sum : list Output → Output.
Variable sumMultiBalanceOf :
  gmap string BalanceValue → Data → Res (gmap string BalanceValue).
Variable Number_length : Output → option nat.

(** The endpoints of [module.exports] used by the adapter. *)
Definition supportedTokens_endpoint : M Data :=
  POST env axios_post pick utility_sum "/util/supportedTokens" None.

Definition abi_call (options : Options) : M Data :=
  POST env axios_post pick utility_sum "/abi/call" (Some options).

Definition abi_multiCall (options : Options) : M Data :=
  POST env axios_post pick utility_sum "/abi/multiCall"
    (Some {| opt_target := opt_target options; opt_abi := opt_abi options;
             opt_chain := opt_chain options; opt_block := opt_block options;
             batch := batch options;
             chunk := Some {| chunk_param := "calls"; chunk_length := 5000;
                              chunk_combine := "array" |} |}).

Definition multiCall_options (abi : string) (calls : list Call) (block : option Z)
    : Options :=
  {| opt_target := None; opt_abi := Some abi; opt_chain := Some "polygon";
     opt_block := block; batch := Some calls; chunk := None |}.

(** Lines 126-135: one multiCall per chunk, summed into [balances]. *)
Fixpoint sum_balanceCallChunks (block : option Z) (balanceCallChunks : list (list Call))
    (balances : gmap string BalanceValue) : M (gmap string BalanceValue) :=
  match balanceCallChunks with
  | [] => mret balances
  | balanceCall :: rest =>
      tokenBalances ← abi_multiCall (multiCall_options "erc20:balanceOf" balanceCall block);
      balances' ← lift (sumMultiBalanceOf balances tokenBalances);
      sum_balanceCallChunks block rest balances'
  end.

(** Lines 9-20: the supported tokens on polygon. *)
Definition read_supportedTokens : M (list string) :=
  data ← supportedTokens_endpoint;
  match data with
  | DTokens tokens => mret (filter_truthy (polygon_pos <$> tokens))
  | DResult _ => throw (TypeError "supportedTokens.map is not a function")
  end.

(** Lines 24-33: the pair indices. *)
Definition read_pairNums (block : option Z) : M (list nat) :=
  r ← abi_call (allPairsLength_options block);
  let pairLength := data_output r in
  match pairLength with
  | ONull => throw (Error "allPairsLength() failed")
  | _ =>
      match Number_length pairLength with
      | Some n => mret (seq 0 n)
      | None => throw (RangeError "Invalid array length")
      end
  end.

(** Lines 8-135 of [tvl]: everything up to the accumulated [balances]. *)
Definition tvl_balances (timestamp : Z) (block : option Z)
    : M (gmap string BalanceValue) :=
  supportedTokens ← read_supportedTokens;
  pairNums ← read_pairNums block;
  r ← abi_multiCall
        (multiCall_options "allPairs"
           ((λ num, {| target := FACTORY; params := ParamsIndex num |}) <$> pairNums)
           block);
  pairs ← lift (as_array (data_output r));
  pairAddresses ← lift (map_res output_toLowerCase pairs);
  let calls :=
    (λ pairAddress, {| target := pairAddress; params := ParamsUndefined |})
      <$> pairAddresses in
  r0 ← abi_multiCall (multiCall_options "token0" calls block);
  r1 ← abi_multiCall (multiCall_options "token1" calls block);
  tokenPairs ← lift (build_tokenPairs supportedTokens pairAddresses pairs
                       (data_output r0) (data_output r1));
  let balanceCalls := build_balanceCalls tokenPairs in
  let chunk := 2500 in
  let balanceCallChunks := make_balanceCallChunks chunk balanceCalls in
  _ ← lift (assert_equal (length balanceCalls) (summed_lengths balanceCallChunks));
  sum_balanceCallChunks block balanceCallChunks ∅.

(** [tvl(timestamp, block)] *)
Definition tvl (timestamp : Z) (block : option Z) : M (gmap string BalanceValue) :=
  balances ← tvl_balances timestamp block;
  mret (or_zero_address balances).

End Adapter.

(** ** The limiter seen from outside

    The definitions below do not come from the source: they describe, for the
    statements that follow, the order in which the limiter's jobs finish and
    what [processRequest] makes of the answers taken in that order. *)

(** The items of [running] and [queued] in the order of completion: at turn
    [t] the running item at position [pick t mod (length running)] finishes
    and the head of the queue starts. *)
Fixpoint completions {X} (pick : nat → nat) (turns t : nat) (queued running : list X)
    : list X :=
  match turns with
  | 0 => []
  | S turns' =>
      let k := pick t `mod` length running in
      match running !! k with
      | None => []
      | Some x =>
          x :: completions pick turns' (S t) (tail queued)
                 (delete k running ++ take 1 queued)
      end
  end.

(** Completion order of [items] scheduled with [limit] jobs at a time. *)
Definition completion_order {X} (limit : nat) (pick : nat → nat) (items : list X)
    : list X :=
  completions pick (length items) 0 (drop limit items) (take limit items).

(** [processRequest] over settled answers, up to the first rejection. *)
Fixpoint replay (cfg : ChunkConfig) (answers : list (Res Data)) (st : Progress)
    : Res Progress :=
  match answers with
  | [] => Ok st
  | Throw e :: _ => Throw e
  | Ok call :: answers' =>
      match processRequest cfg call st with
      | Throw e => Throw e
      | Ok st' => replay cfg answers' st'
      end
  end.

(** What one answer adds to the counter and to the output in 'array' mode. *)
Definition counted (call : Data) : Z :=
  if truthy_count (data_ethCallCount call) then default 0%Z (data_ethCallCount call)
  else 0%Z.

Definition contributed (call : Data) : list Output :=
  if truthy_count (data_ethCallCount call)
  then match spread (data_output call) with Ok xs => xs | Throw _ => [] end
  else [].

Definition sum_counts (calls : list Data) : Z :=
  foldr (λ call acc, (counted call + acc)%Z) 0%Z calls.

(** ** Concrete runs

    Environments, requests and services used to evaluate the model. *)
Module Run.

(** No ADAPTER_CONCURRENCY: one job at a time. *)
Definition env1 : Env :=
  {| DEFIPULSE_API_URL := Some "https://api"; DEFIPULSE_KEY := Some "key";
     INFURA_KEY := None; ADAPTER_CONCURRENCY := None |}.

(** ADAPTER_CONCURRENCY=2 *)
Definition env2 : Env :=
  {| DEFIPULSE_API_URL := Some "https://api"; DEFIPULSE_KEY := Some "key";
     INFURA_KEY := None; ADAPTER_CONCURRENCY := Some 2%positive |}.

Definition call (a : string) : Call := {| target := a; params := ParamsUndefined |}.

(** The options of a multiCall with chunks of [len] calls. *)
Definition multiCall (len : Z) (calls : list Call) : Options :=
  {| opt_target := None; opt_abi := Some "token0"; opt_chain := Some "polygon";
     opt_block := None; batch := Some calls;
     chunk := Some {| chunk_param := "calls"; chunk_length := len;
                      chunk_combine := "array" |} |}.

Definition outputs (calls : list Call) : Output :=
  OArray ((λ c, OResult (OString (target c))) <$> calls).

(** A service answering each call with its target, and the number of
    calls as [ethCallCount]. *)
Definition echo (url : string) (options : option Options) : Res Data :=
  match options with
  | Some o =>
      let calls := default [] (batch o) in
      Ok (DResult {| ethCallCount := Some (Z.of_nat (length calls));
                     output := outputs calls |})
  | None => Ok (DTokens [])
  end.

(** The same service, but without [ethCallCount] in the answer to a
    batch that starts with the call to "b". *)
Definition uncounted (url : string) (options : option Options) : Res Data :=
  match options with
  | Some o =>
      let calls := default [] (batch o) in
      Ok (DResult {| ethCallCount :=
                       match calls with
                       | c :: _ =>
                           if String.eqb (target c) "b" then None
                           else Some (Z.of_nat (length calls))
                       | [] => Some 0%Z
                       end;
                     output := outputs calls |})
  | None => Ok (DTokens [])
  end.

(** An axios error: status 500, with the response headers, the request
    configuration and the request object attached. *)
Definition status500 : JsError :=
  {| name := "Error";
     message := "Request failed with status code 500";
     response := Some (<["status" := "500"]> (<["headers" := "content-type"]> ∅));
     config := Some (<["url" := "https://api/key/abi/multiCall"]> (<["timeout" := "0"]> ∅));
     request := Some "ClientRequest" |}.

(** A service failing on every batch that contains the call to "b". *)
Definition failing (url : string) (options : option Options) : Res Data :=
  match options with
  | Some o =>
      let calls := default [] (batch o) in
      if existsb (λ c, String.eqb (target c) "b") calls then Throw status500
      else echo url options
  | None => Ok (DTokens [])
  end.

(** Jobs finish in the order they were started. *)
Definition in_order (t : nat) : nat := 0.

(** The second running job finishes first. *)
Definition second_first (t : nat) : nat :=
  match t with 0 => 1 | _ => 0 end.

Definition no_sum (outputs : list Output) : Output := OUndefined.

(** [Number] on a string of decimal digits ([Number("")] is 0). *)
Fixpoint decimal (s : string) (acc : nat) : option nat :=
  match s with
  | EmptyString => Some acc
  | String c s' =>
      let n := nat_of_ascii c in
      if (48 <=? n) && (n <=? 57) then decimal s' (10 * acc + (n - 48)) else None
  end.

Definition Number_length (o : Output) : option nat :=
  match o with
  | OString s => decimal s 0
  | _ => None
  end.

Definition token (address : string) : Token :=
  {| platforms := Some (<["polygon-pos" := address]> ∅) |}.

(** A chain with one pair "0xPAIR" of the tokens "0xAA" and "0xBB".  The
    service answers the token list [tokens], the pair count [pairLength]
    and, for a multiCall, one result per call according to the abi. *)
Definition dfyn (tokens : list Token) (pairLength : Output)
    (url : string) (options : option Options) : Res Data :=
  match options with
  | None => Ok (DTokens tokens)
  | Some o =>
      match batch o with
      | None => Ok (DResult {| ethCallCount := Some 1%Z; output := pairLength |})
      | Some calls =>
          let value (c : Call) : string :=
            match opt_abi o with
            | Some "allPairs" => "0xPAIR"
            | Some "token0" => "0xAA"
            | Some "token1" => "0xBB"
            | _ => "1000"
            end in
          Ok (DResult {| ethCallCount := Some (Z.of_nat (length calls));
                         output := OArray ((λ c, OResult (OString (value c))) <$> calls) |})
      end
  end.

(** The calls [{ target: FACTORY, params: [num] }] for [n] pairs. *)
Definition allPairs_calls (n : nat) : list Call :=
  (λ num, {| target := FACTORY; params := ParamsIndex num |}) <$> seq 0 n.

(** The pair answered for index [num]: one address for the first 5000
    indices, another one from index 5000 on. *)
Definition pair_at (c : Call) : Output :=
  OResult (OString match params c with
                   | ParamsIndex num => if num <? 5000 then "0xaaaa" else "0xbbbb"
                   | _ => ""
                   end).

Definition factory (url : string) (options : option Options) : Res Data :=
  match options with
  | Some o =>
      let calls := default [] (batch o) in
      Ok (DResult {| ethCallCount := Some (Z.of_nat (length calls));
                     output := OArray (pair_at <$> calls) |})
  | None => Ok (DTokens [])
  end.

(** The options of an endpoint combined in 'balances' mode. *)
Definition getAssetsLocked (len : Z) (calls : list Call) : Options :=
  {| opt_target := None; opt_abi := None; opt_chain := None;
     opt_block := None; batch := Some calls;
     chunk := Some {| chunk_param := "targets"; chunk_length := len;
                      chunk_combine := "balances" |} |}.

(** A stand-in for [utility.sum] that hands back the array it is given. *)
Definition collect (outputs : list Output) : Output := OArray outputs.

(** A stand-in for [sumMultiBalanceOf] that leaves [balances] as it is. *)
Definition keep (balances : gmap string BalanceValue) (tokenBalances : Data)
    : Res (gmap string BalanceValue) :=
  Ok balances.

End Run.

(** * Properties *)

(** ** Chunking *)

Section ChunkLoop.
Context {A : Type}.
Implicit Types (array : list A) (result : list (list A)).

Lemma slice_step array i count :
  slice array i (i + count) = take count (drop i array).
Proof. unfold slice. f_equal. lia. Qed.

(** With a positive step the loop leaves by its condition: once the budget
    covers the distance to the end of the array, a larger one changes
    nothing. *)
Lemma chunk_loop_enough fuel extra array count i result :
  1 ≤ count → length array - i ≤ fuel →
  chunk_loop (fuel + extra) array count i result = chunk_loop fuel array count i result.
Proof.
  intros Hcount. revert i result.
  induction fuel as [|fuel IH]; intros i result Hfuel; simpl.
  - destruct extra as [|extra]; simpl; [done|].
    destruct (Nat.ltb_spec i (length array)); [lia | done].
  - destruct (Nat.ltb_spec i (length array)); [|done].
    apply IH. lia.
Qed.

(** Flattening what the loop produces gives back what was already
    collected followed by the rest of the array. *)
Lemma chunk_loop_concat fuel array count i result :
  1 ≤ count → length array - i ≤ fuel →
  concat (chunk_loop fuel array count i result) = concat result ++ drop i array.
Proof.
  intros Hcount. revert i result.
  induction fuel as [|fuel IH]; intros i result Hfuel; simpl.
  - rewrite drop_ge by lia. by rewrite app_nil_r.
  - destruct (Nat.ltb_spec i (length array)) as [Hlt|Hge].
    + rewrite IH by lia.
      rewrite concat_app, slice_step. simpl. rewrite app_nil_r, <- app_assoc.
      f_equal. rewrite <- drop_drop. apply take_drop.
    + rewrite drop_ge by lia. by rewrite app_nil_r.
Qed.

(** Every chunk has between 1 and [count] elements. *)
Lemma chunk_loop_bounds fuel array count i result :
  1 ≤ count →
  Forall (λ c, 1 ≤ length c ≤ count) result →
  Forall (λ c, 1 ≤ length c ≤ count) (chunk_loop fuel array count i result).
Proof.
  intros Hcount. revert i result.
  induction fuel as [|fuel IH]; intros i result Hres; simpl; [done|].
  destruct (Nat.ltb_spec i (length array)) as [Hlt|Hge]; [|done].
  apply IH. apply Forall_app. split; [done|].
  apply Forall_singleton. rewrite slice_step, length_take, length_drop. lia.
Qed.

Lemma array_assign_end result (v : list A) :
  array_assign result (length result) v = result ++ [v].
Proof.
  unfold array_assign. rewrite Nat.ltb_irrefl, Nat.sub_diag. done.
Qed.

(** The adapter's loop writes [balanceCallChunks[count]] with [count]
    always at the end of the array: it is the loop of [_.chunk]. *)
Lemma balanceCallChunks_loop_chunk_loop fuel array chunk i result :
  balanceCallChunks_loop fuel array chunk i (length result) result
  = chunk_loop fuel array chunk i result.
Proof.
  revert i result. induction fuel as [|fuel IH]; intros i result; simpl; [done|].
  destruct (i <? length array); [|done].
  rewrite array_assign_end, <- IH. f_equal. rewrite length_app. simpl. lia.
Qed.

Lemma summed_lengths_concat (chunks : list (list A)) :
  summed_lengths chunks = length (concat chunks).
Proof.
  unfold summed_lengths.
  assert (∀ acc, foldl (λ accumulator value, accumulator + value) acc (length <$> chunks)
                 = acc + length (concat chunks)) as H.
  { induction chunks as [|c chunks IH]; intros acc; simpl; [lia|].
    rewrite IH, length_app. lia. }
  apply H.
Qed.

Lemma _chunk_concat array (count : Z) :
  (1 ≤ count)%Z → concat (_chunk array count) = array.
Proof.
  intros Hcount. unfold _chunk.
  destruct (Z.ltb_spec count 1); [lia|].
  rewrite chunk_loop_concat by lia. done.
Qed.

Lemma _chunk_bounds array (count : Z) :
  Forall (λ c, 1 ≤ length c ∧ (Z.of_nat (length c) ≤ count)%Z) (_chunk array count).
Proof.
  unfold _chunk. destruct (Z.ltb_spec count 1); [done|].
  eapply Forall_impl; [apply (chunk_loop_bounds _ _ (Z.to_nat count)); [lia|done]|].
  simpl. intros c ?. lia.
Qed.

Lemma make_balanceCallChunks_chunk_loop chunk array :
  make_balanceCallChunks chunk array = chunk_loop (length array) array chunk 0 [].
Proof. apply (balanceCallChunks_loop_chunk_loop _ _ _ _ []). Qed.

Lemma make_balanceCallChunks_concat chunk array :
  1 ≤ chunk → concat (make_balanceCallChunks chunk array) = array.
Proof.
  intros Hchunk. rewrite make_balanceCallChunks_chunk_loop.
  rewrite chunk_loop_concat by lia. done.
Qed.

End ChunkLoop.

(** C4.  For every list and every chunk size [M >= 1], both chunkers
    ([_.chunk] used by POST and the slicing loop of the adapter) produce
    chunks whose concatenation in chunk order is the original list, with the
    same total count; and the adapter's [assert.equal] between the input
    length and the summed chunk lengths passes. *)
Theorem chunking_reproduces_input {A} (descriptors : list A) (M : Z) :
  (1 ≤ M)%Z →
  concat (_chunk descriptors M) = descriptors
  ∧ summed_lengths (_chunk descriptors M) = length descriptors
  ∧ concat (make_balanceCallChunks (Z.to_nat M) descriptors) = descriptors
  ∧ assert_equal (length descriptors)
      (summed_lengths (make_balanceCallChunks (Z.to_nat M) descriptors)) = Ok ().
Proof.
  intros HM.
  assert (concat (make_balanceCallChunks (Z.to_nat M) descriptors) = descriptors) as Hc
    by (apply make_balanceCallChunks_concat; lia).
  split; [by apply _chunk_concat|].
  split; [by rewrite summed_lengths_concat, _chunk_concat|].
  split; [done|].
  unfold assert_equal. rewrite summed_lengths_concat, Hc, Nat.eqb_refl. done.
Qed.

Lemma chunking_reproduces_input_witness :
  concat (_chunk [1; 2; 3; 4; 5] 2) = [1; 2; 3; 4; 5]
  ∧ summed_lengths (_chunk [1; 2; 3; 4; 5] 2) = 5
  ∧ concat (make_balanceCallChunks 2 [1; 2; 3; 4; 5]) = [1; 2; 3; 4; 5]
  ∧ assert_equal 5 (summed_lengths (make_balanceCallChunks 2 [1; 2; 3; 4; 5])) = Ok ().
Proof. apply (chunking_reproduces_input [1; 2; 3; 4; 5] 2). lia. Defined.

(** ** Promises *)

Lemma settled_bind_Ok {A B} (m : M A) (f : A → M B) a log :
  m = Some (Ok a, log) → settled (m ≫= f) = settled (f a).
Proof.
  intros ->. unfold settled, mbind, M_bind, bind.
  destruct (f a) as [[r log']|]; done.
Qed.

Lemma settled_bind_Throw {A B} (m : M A) (f : A → M B) e log :
  m = Some (Throw e, log) → settled (m ≫= f) = Some (Throw e).
Proof. intros ->. done. Qed.

Lemma settled_lift_bind {A B} (r : Res A) (f : A → M B) :
  settled (lift r ≫= f) = match r with Ok a => settled (f a) | Throw e => Some (Throw e) end.
Proof.
  destruct r as [a|e]; [|done].
  by apply settled_bind_Ok with (log := []).
Qed.

Lemma bind_ext_on {A B} (m : M A) (f g : A → M B) :
  (∀ a log, m = Some (Ok a, log) → f a = g a) → m ≫= f = m ≫= g.
Proof.
  intros H. unfold mbind, M_bind, bind.
  destruct m as [[[a|e] log]|]; [|done..].
  by rewrite (H a log).
Qed.

(** ** The limiter *)

Section Completions.
Context {X : Type}.
Variable pick : nat → nat.
Implicit Types queued running : list X.

(** The order of completion depends on the shape of the lists only. *)
Lemma completions_fmap {Y} (f : X → Y) turns t queued running :
  f <$> completions pick turns t queued running
  = completions pick turns t (f <$> queued) (f <$> running).
Proof.
  revert t queued running.
  induction turns as [|turns IH]; intros t queued running; simpl; [done|].
  rewrite length_fmap, list_lookup_fmap.
  destruct (running !! _) as [x|]; simpl; [|done].
  rewrite IH, fmap_app, list_fmap_delete, fmap_take, fmap_tail. done.
Qed.

(** Every item finishes exactly once. *)
Lemma completions_Permutation turns t queued running :
  length running + length queued ≤ turns →
  (queued ≠ [] → running ≠ []) →
  completions pick turns t queued running ≡ₚ running ++ queued.
Proof.
  revert t queued running.
  induction turns as [|turns IH]; intros t queued running Hturns Hne; simpl.
  - destruct running; [|simpl in Hturns; lia].
    destruct queued; [done | simpl in Hturns; lia].
  - destruct running as [|x0 running0] eqn:Hrun.
    { destruct queued; [done | by destruct Hne]. }
    rewrite <- Hrun in *.
    assert (0 < length running) as Hpos by (rewrite Hrun; simpl; lia).
    destruct (lookup_lt_is_Some_2 running (pick t `mod` length running)) as [x Hx].
    { apply Nat.mod_upper_bound. lia. }
    rewrite Hx.
    assert (length (delete (pick t `mod` length running) running) = length running - 1)
      as Hlen by (apply length_delete; eauto).
    rewrite IH.
    + transitivity ((x :: delete (pick t `mod` length running) running) ++ queued).
      * simpl. constructor. rewrite <- app_assoc. by destruct queued.
      * apply Permutation_app_tail. symmetry. by apply delete_Permutation.
    + rewrite length_app, Hlen. destruct queued; simpl in *; lia.
    + intros Htl. destruct queued as [|q queued']; [done|].
      simpl. by destruct (delete _ running).
Qed.

(** One job at a time: the jobs finish in the order of the queue. *)
Lemma completions_sequential turns t queued x :
  length queued < turns →
  completions pick turns t queued [x] = x :: queued.
Proof.
  revert turns t x.
  induction queued as [|q queued IH]; intros turns t x Hturns;
    (destruct turns as [|turns]; [simpl in Hturns; lia|]); simpl.
  - by destruct turns.
  - rewrite IH; [done | simpl in Hturns; lia].
Qed.

Lemma completion_order_Permutation limit (items : list X) :
  1 ≤ limit → completion_order limit pick items ≡ₚ items.
Proof.
  intros Hlimit. unfold completion_order.
  rewrite completions_Permutation.
  - by rewrite take_drop.
  - rewrite length_take, length_drop. lia.
  - intros Hq Ht. apply Hq. destruct items as [|? items]; [by rewrite drop_nil|].
    destruct limit; [lia | done].
Qed.

Lemma completion_order_sequential (items : list X) :
  completion_order 1 pick items = items.
Proof.
  unfold completion_order. destruct items as [|x items]; [done|].
  simpl take. simpl drop. rewrite drop_0.
  apply completions_sequential. simpl. lia.
Qed.

End Completions.

Section Jobs.
Variable pick : nat → nat.
Variable cfg : ChunkConfig.

Lemma start_next_queue post queued running queued' running' log :
  start_next post queued running = Some (Ok (queued', running'), log) →
  queued' = tail queued.
Proof.
  destruct queued as [|[i c] queued]; simpl.
  - by intros [= <- _ _].
  - unfold mbind, M_bind, bind, attempt.
    destruct (post c) as [[r l]|]; simpl; [|done]. by intros [= <- _ _].
Qed.

(** The limiter calls [post] on queued chunks only. *)
Lemma start_next_ext post1 post2 queued running :
  Forall (λ q, post1 q.2 = post2 q.2) queued →
  start_next post1 queued running = start_next post2 queued running.
Proof.
  destruct queued as [|[i c] queued]; simpl; [done|].
  intros H. apply Forall_cons_1 in H as [Hc _]. simpl in Hc. by rewrite Hc.
Qed.

Lemma start_many_ext post1 post2 k queued running :
  Forall (λ q, post1 q.2 = post2 q.2) queued →
  start_many post1 k queued running = start_many post2 k queued running.
Proof.
  revert queued running.
  induction k as [|k IH]; intros queued running H; cbn [start_many]; [done|].
  rewrite (start_next_ext post1 post2) by done.
  apply bind_ext_on. intros [queued' running'] log Hstart.
  apply start_next_queue in Hstart as ->. apply IH. by apply Forall_tail.
Qed.

Lemma start_many_queue post k queued running queued' running' log :
  start_many post k queued running = Some (Ok (queued', running'), log) →
  queued' = drop k queued.
Proof.
  revert queued running queued' running' log.
  induction k as [|k IH]; intros queued running queued' running' log; simpl.
  - by intros [= <- _ _].
  - unfold mbind, M_bind, bind.
    destruct (start_next post queued running) as [[[[q r]|e] l]|] eqn:Hstart; [|done..].
    apply start_next_queue in Hstart as ->.
    destruct (start_many post k (tail queued) r) as [[[[q2 r2]|e2] l2]|] eqn:Hmany;
      [|done..].
    apply IH in Hmany as ->. intros [= <- _ _].
    destruct queued; simpl; [by rewrite drop_nil | done].
Qed.

Lemma run_jobs_ext post1 post2 turns t queued running st :
  Forall (λ q, post1 q.2 = post2 q.2) queued →
  run_jobs pick post1 cfg turns t queued running st
  = run_jobs pick post2 cfg turns t queued running st.
Proof.
  revert t queued running st.
  induction turns as [|turns IH]; intros t queued running st H; cbn [run_jobs]; [done|].
  destruct (running !! _) as [[i r]|]; [|done].
  apply bind_ext_on. intros call _ _.
  apply bind_ext_on. intros st' _ _.
  rewrite (start_next_ext post1 post2) by done.
  apply bind_ext_on. intros [queued' running'] log Hstart.
  apply start_next_queue in Hstart as ->. apply IH. by apply Forall_tail.
Qed.

Lemma Forall_imap_snd {A} (P : A → Prop) (f : nat → nat) (l : list A) :
  Forall P l → Forall (λ q, P q.2) (imap (λ i c, (f i, c)) l).
Proof.
  revert f. induction l as [|x l IH]; intros f H; simpl; [done|].
  apply Forall_cons_1 in H as [Hx Hl].
  constructor; [done|]. apply (IH (f ∘ S)), Hl.
Qed.

Lemma schedule_all_ext env post1 post2 chunks :
  (∀ ch, ch ∈ chunks → post1 ch = post2 ch) →
  schedule_all env pick post1 cfg chunks = schedule_all env pick post2 cfg chunks.
Proof.
  intros H. unfold schedule_all.
  assert (Forall (λ q : nat * list Call, post1 q.2 = post2 q.2)
            (imap (λ i c, (i, c)) chunks)) as Hall.
  { apply (Forall_imap_snd (λ c, post1 c = post2 c) id). by apply Forall_forall. }
  rewrite (start_many_ext post1 post2) by done.
  apply bind_ext_on. intros [queued running] log Hstart.
  apply start_many_queue in Hstart as ->.
  apply run_jobs_ext. by apply Forall_drop.
Qed.

(** From here on every chunk's request settles, to [result_of chunk]. *)
Variable post : list Call → M Data.
Variable result_of : list Call → Res Data.

Local Abbreviation job := (λ q : nat * list Call, (q.1, result_of q.2)).
Local Abbreviation settles := (λ q : nat * list Call, ∃ log, post q.2 = Some (result_of q.2, log)).

Lemma start_next_settles queued running :
  Forall settles queued →
  ∃ log, start_next post queued running
         = Some (Ok (tail queued, running ++ (job <$> take 1 queued)), log).
Proof.
  destruct queued as [|[i c] queued]; simpl; intros H.
  - exists []. by rewrite app_nil_r.
  - apply Forall_cons_1 in H as [[log Hpost] _]. simpl in Hpost.
    exists (log ++ []). unfold mbind, M_bind, bind, attempt. by rewrite Hpost.
Qed.

Lemma start_many_settles k queued running :
  Forall settles queued →
  ∃ log, start_many post k queued running
         = Some (Ok (drop k queued, running ++ (job <$> take k queued)), log).
Proof.
  revert queued running. induction k as [|k IH]; intros queued running H; simpl.
  - exists []. by rewrite app_nil_r.
  - destruct (start_next_settles queued running H) as [log1 ->].
    destruct (IH (tail queued) (running ++ (job <$> take 1 queued))) as [log2 Hmany].
    { by apply Forall_tail. }
    exists (log1 ++ log2). unfold mbind, M_bind, bind. rewrite Hmany.
    destruct queued as [|q queued]; simpl.
    + by rewrite ?drop_nil, ?take_nil, ?app_nil_r.
    + by rewrite ?take_0, <- ?app_assoc.
Qed.

(** The settled value of [Promise.all] is [processRequest] replayed over
    the answers in the order of completion. *)
Lemma run_jobs_settled turns t queued running st :
  Forall settles queued →
  settled (run_jobs pick post cfg turns t queued running st)
  = Some (replay cfg (snd <$> completions pick turns t (job <$> queued) running) st).
Proof.
  revert t queued running st.
  induction turns as [|turns IH]; intros t queued running st H;
    cbn [run_jobs completions]; [done|].
  destruct (running !! _) as [[i r]|] eqn:Hk; [|done].
  rewrite fmap_cons. cbn [replay snd].
  rewrite settled_lift_bind. destruct r as [call|e]; [|done].
  rewrite settled_lift_bind. destruct (processRequest cfg call st) as [st'|e]; [|done].
  destruct (start_next_settles queued (delete (pick t `mod` length running) running) H)
    as [log Hstart].
  rewrite (settled_bind_Ok _ _ _ _ Hstart), IH by (by apply Forall_tail).
  by rewrite fmap_tail, fmap_take.
Qed.

Lemma schedule_all_settled env chunks :
  (∀ ch, ch ∈ chunks → ∃ log, post ch = Some (result_of ch, log)) →
  settled (schedule_all env pick post cfg chunks)
  = Some (replay cfg (completion_order (maxConcurrent env) pick (result_of <$> chunks))
            {| st_ethCallCount := 0; st_output := []; st_complete := 0 |}).
Proof.
  intros H. unfold schedule_all.
  assert (Forall settles (imap (λ i c, (i, c)) chunks)) as Hall.
  { apply (Forall_imap_snd (λ c, ∃ log, post c = Some (result_of c, log)) id).
    by apply Forall_forall. }
  destruct (start_many_settles (maxConcurrent env) _ [] Hall) as [log Hstart].
  rewrite (settled_bind_Ok _ _ _ _ Hstart), run_jobs_settled by (by apply Forall_drop).
  f_equal. f_equal. unfold completion_order.
  rewrite completions_fmap, length_fmap. simpl.
  assert (∀ (f : nat → nat) (l : list (list Call)),
            snd <$> (job <$> imap (λ i c, (f i, c)) l) = result_of <$> l) as Himap.
  { intros f l. revert f. induction l as [|x l IHl]; intros f; simpl; [done|].
    f_equal. apply (IHl (f ∘ S)). }
  rewrite <- !list_fmap_compose, <- (Himap id chunks), <- !list_fmap_compose.
  by rewrite fmap_drop, fmap_take.
Qed.

End Jobs.

(** ** POST *)

Lemma lift_Ok_bind {A B} (a : A) (f : A → M B) : lift (Ok a) ≫= f = f a.
Proof. unfold mbind, M_bind, bind, lift. by destruct (f a) as [[r log]|]. Qed.

Lemma settled_try_catch {A} (m : M A) (h : JsError → JsError) :
  settled (try_catch m (λ error, throw (h error)))
  = (λ r, match r with Ok a => Ok a | Throw e => Throw (h e) end) <$> settled m.
Proof. by destruct m as [[[a|e] log]|]. Qed.

Lemma settled_bind_mret {A B} (m : M A) (f : A → B) :
  settled (m ≫= λ a, mret (f a))
  = (λ r, match r with Ok a => Ok (f a) | Throw e => Throw e end) <$> settled m.
Proof. by destruct m as [[[a|e] log]|]. Qed.

(** [maybePreSerializeAxiosError] leaves alone what it has already trimmed. *)
Lemma _pick_idemp obj keys : _pick (Some (_pick obj keys)) keys = _pick obj keys.
Proof.
  unfold _pick. simpl. rewrite map_filter_filter.
  apply map_filter_ext. intros; simpl; tauto.
Qed.

Lemma maybePreSerializeAxiosError_idemp error :
  maybePreSerializeAxiosError (maybePreSerializeAxiosError error)
  = maybePreSerializeAxiosError error.
Proof.
  unfold maybePreSerializeAxiosError.
  destruct (response error) as [r|] eqn:Hr; simpl; [|by rewrite Hr].
  by rewrite !_pick_idemp.
Qed.

Lemma maybePreSerializeAxiosError_no_response error :
  response error = None → maybePreSerializeAxiosError error = error.
Proof. unfold maybePreSerializeAxiosError. by intros ->. Qed.

Lemma chunking_Some options o c l :
  chunking options = Ok (Some (o, c, l)) →
  options = Some o ∧ chunk o = Some c ∧ batch o = Some l
  ∧ (chunk_length c < Z.of_nat (length l))%Z.
Proof.
  unfold chunking. destruct options as [o'|]; [|done].
  destruct (chunk o') as [c'|] eqn:Hc; [|done].
  destruct (batch o') as [l'|] eqn:Hl; [|done].
  destruct (Z.ltb_spec (chunk_length c') (Z.of_nat (length l'))); [|done].
  intros [= <- <- <-]. done.
Qed.

(** A chunk is never chunked again. *)
Lemma chunk_not_rechunked options o c l ch :
  chunking options = Ok (Some (o, c, l)) →
  ch ∈ _chunk l (chunk_length c) →
  chunking (Some (set_batch o ch)) = Ok None.
Proof.
  intros (_ & Hc & _ & _)%chunking_Some Hin.
  pose proof (_chunk_bounds l (chunk_length c)) as Hb.
  rewrite Forall_forall in Hb. destruct (Hb ch Hin) as [_ Hle].
  unfold chunking. simpl. rewrite Hc.
  destruct (Z.ltb_spec (chunk_length c) (Z.of_nat (length ch))); [lia | done].
Qed.

Section PostFacts.
Variable env : Env.
Variable axios_post : string → option Options → Res Data.
Variable pick : nat → nat.
Variable utility_sum : list Output → Output.

Local Abbreviation POST_fuel' := (POST_fuel env axios_post pick utility_sum).
Local Abbreviation answer' := (answer env axios_post).

Lemma POST_fuel_unfold fuel endpoint options :
  POST_fuel' (S fuel) endpoint options
  = try_catch
      (branch ← lift (chunking options);
       match branch with
       | Some (o, c, l) =>
           st ← schedule_all env pick
                  (λ chunk, POST_fuel' fuel endpoint (Some (set_batch o chunk)))
                  c (_chunk l (chunk_length c));
           mret (DResult {| ethCallCount := Some (st_ethCallCount st);
                            output := if String.eqb (chunk_combine c) "balances"
                                      then utility_sum (st_output st)
                                      else OArray (st_output st) |})
       | None => axios_post_request axios_post (post_url env endpoint) options
       end)
      (λ error, throw (maybePreSerializeAxiosError error)).
Proof. done. Qed.

(** Outside the chunking branch [POST] is one request. *)
Lemma POST_fuel_leaf fuel endpoint options :
  chunking options = Ok None →
  POST_fuel' (S fuel) endpoint options
  = Some (answer' endpoint options, [(post_url env endpoint, options)]).
Proof.
  intros H. rewrite POST_fuel_unfold, H, lift_Ok_bind.
  unfold axios_post_request, answer, try_catch.
  by destruct (axios_post _ _).
Qed.

(** In the chunking branch [POST] settles to the combination of the
    chunks' answers taken in their order of completion. *)
Lemma POST_fuel_chunked fuel endpoint options o c l :
  chunking options = Ok (Some (o, c, l)) →
  settled (POST_fuel' (S (S fuel)) endpoint options)
  = Some (combined utility_sum c
            (replay c
               (completion_order (maxConcurrent env) pick
                  ((λ ch, answer' endpoint (Some (set_batch o ch)))
                     <$> _chunk l (chunk_length c)))
               {| st_ethCallCount := 0; st_output := []; st_complete := 0 |})).
Proof.
  intros H. rewrite POST_fuel_unfold, H, lift_Ok_bind.
  rewrite settled_try_catch, settled_bind_mret.
  rewrite (schedule_all_settled pick c _
             (λ ch, answer' endpoint (Some (set_batch o ch)))).
  - simpl. by destruct (replay _ _ _).
  - intros ch Hin. eexists. apply POST_fuel_leaf.
    by eapply chunk_not_rechunked.
Qed.

(** Depth 2 is enough: a larger budget gives the same computation. *)
Lemma POST_fuel_enough fuel endpoint options :
  POST_fuel' (S (S fuel)) endpoint options = POST_fuel' 2 endpoint options.
Proof.
  rewrite (POST_fuel_unfold (S fuel)), (POST_fuel_unfold 1). f_equal.
  destruct (chunking options) as [[[[o c] l]|]|e] eqn:H; [|done..].
  rewrite !lift_Ok_bind. f_equal.
  apply schedule_all_ext. intros ch Hin.
  rewrite !POST_fuel_leaf by (by eapply chunk_not_rechunked). done.
Qed.

Lemma POST_fuel_total endpoint options :
  is_Some (POST_fuel' 2 endpoint options).
Proof.
  destruct (chunking options) as [[[[o c] l]|]|e] eqn:H.
  - pose proof (POST_fuel_chunked 0 endpoint options o c l H) as Hs.
    destruct (POST_fuel' 2 endpoint options); [by eexists | done].
  - rewrite POST_fuel_leaf by done. by eexists.
  - rewrite POST_fuel_unfold, H. by eexists.
Qed.

End PostFacts.

(** ** Combining the answers *)

Lemma processRequest_Throw c call st e :
  processRequest c call st = Throw e → e = TypeError "call.output is not iterable".
Proof.
  unfold processRequest.
  destruct (truthy_count _); [|done].
  destruct (String.eqb (chunk_combine c) "array").
  - destruct (data_output call); simpl; congruence.
  - by destruct (String.eqb (chunk_combine c) "balances").
Qed.

(** A rejected answer rejects the whole: with the first rejection met in
    the order of completion, or with the TypeError of an earlier answer that
    could not be combined. *)
Lemma replay_failure c answers st e0 :
  Throw e0 ∈ answers →
  ∃ e, replay c answers st = Throw e
       ∧ (Throw e ∈ answers ∨ e = TypeError "call.output is not iterable").
Proof.
  revert st. induction answers as [|[call|e1] answers IH]; intros st Hin.
  - by apply elem_of_nil in Hin.
  - apply elem_of_cons in Hin as [?|Hin]; [done|]. simpl.
    destruct (processRequest c call st) as [st'|e] eqn:Hp.
    + destruct (IH st' Hin) as (e & He & Hor). exists e. split; [done|].
      destruct Hor as [He'|He']; [left | by right]. by apply elem_of_cons; right.
    + exists e. split; [done|]. right. by eapply processRequest_Throw.
  - exists e1. split; [done|]. left. by apply elem_of_cons; left.
Qed.

(** In 'array' mode a fulfilled combination is the sum of the counts and
    the concatenation of the outputs of the answers whose count is truthy. *)
Lemma replay_array c answers st st' :
  chunk_combine c = "array" →
  replay c answers st = Ok st' →
  ∃ calls, answers = Ok <$> calls
    ∧ st_ethCallCount st' = (st_ethCallCount st + sum_counts calls)%Z
    ∧ st_output st' = st_output st ++ concat (contributed <$> calls).
Proof.
  intros Hc. revert st.
  induction answers as [|[call|e1] answers IH]; intros st; simpl; [| |done].
  - intros [= <-]. exists []. simpl. split; [done|]. split; [lia|by rewrite app_nil_r].
  - destruct (processRequest c call st) as [st1|e] eqn:Hp; [|done].
    intros (calls & -> & Hcount & Hout)%IH.
    exists (call :: calls). split; [done|].
    rewrite Hcount, Hout. simpl.
    unfold processRequest in Hp. rewrite Hc in Hp. simpl in Hp.
    unfold counted, contributed.
    destruct (truthy_count (data_ethCallCount call)).
    + destruct (spread (data_output call)) as [xs|e]; [|done].
      injection Hp as <-. simpl. split; [lia | by rewrite app_assoc].
    + injection Hp as <-. simpl. split; [lia|done].
Qed.

Lemma concat_length_Permutation {A} (xs ys : list (list A)) :
  xs ≡ₚ ys → length (concat xs) = length (concat ys).
Proof.
  induction 1; simpl; rewrite ?length_app in *; lia.
Qed.

(** When every answer reports as many calls as its chunk has descriptors,
    and as many outputs, nothing is lost. *)
Lemma all_counted (result_of : list Call → Res Data) (order : list (list Call))
    (calls : list Data) :
  Ok <$> calls = result_of <$> order →
  (∀ ch, ch ∈ order → 1 ≤ length ch ∧
     ∃ xs, result_of ch = Ok (DResult {| ethCallCount := Some (Z.of_nat (length ch));
                                          output := OArray xs |})
           ∧ length xs = length ch) →
  sum_counts calls = Z.of_nat (length (concat order))
  ∧ length (concat (contributed <$> calls)) = length (concat order).
Proof.
  revert calls. induction order as [|ch order IH]; intros calls Heq Hall.
  - by destruct calls.
  - destruct calls as [|call calls]; [done|].
    simpl in Heq. injection Heq as Hcall Hrest.
    destruct (Hall ch) as (Hpos & xs & Hres & Hlen); [by apply elem_of_cons; left|].
    rewrite Hres in Hcall. injection Hcall as ->.
    destruct (IH calls Hrest) as [IH1 IH2].
    { intros ch' Hin. apply Hall. by apply elem_of_cons; right. }
    change (sum_counts (?x :: calls)) with (counted x + sum_counts calls)%Z.
    rewrite fmap_cons, !concat_cons, !length_app, IH1, IH2.
    unfold counted, contributed. cbn [data_ethCallCount data_output ethCallCount output].
    cbn [truthy_count default spread].
    destruct (Z.eqb_spec (Z.of_nat (length ch)) 0); [lia|]. simpl negb. cbv iota.
    unfold id. lia.
Qed.

Lemma maxConcurrent_pos env : 1 ≤ maxConcurrent env.
Proof. unfold maxConcurrent. destruct (ADAPTER_CONCURRENCY env); lia. Qed.

Lemma completion_order_fmap {X Y} (f : X → Y) limit pick (items : list X) :
  completion_order limit pick (f <$> items) = f <$> completion_order limit pick items.
Proof.
  unfold completion_order.
  by rewrite completions_fmap, length_fmap, fmap_drop, fmap_take.
Qed.

(** With the default concurrency the answers are combined in chunk order. *)
Lemma completion_order_default {X} env pick (items : list X) :
  ADAPTER_CONCURRENCY env = None →
  completion_order (maxConcurrent env) pick items = items.
Proof. unfold maxConcurrent. intros ->. apply completion_order_sequential. Qed.

(** ** Termination *)

(** C10.  When POST takes the chunking branch, every recursive call receives
    a chunk no longer than the configured length, so its own chunking
    condition is false; the recursion therefore has depth at most two: POST
    returns with a budget of two nested calls and any larger budget gives
    the same computation. *)
Theorem POST_recursion_depth_two env axios_post pick utility_sum endpoint options :
  (∀ o c l ch,
      chunking options = Ok (Some (o, c, l)) →
      ch ∈ _chunk l (chunk_length c) →
      (Z.of_nat (length ch) ≤ chunk_length c)%Z
      ∧ chunking (Some (set_batch o ch)) = Ok None)
  ∧ is_Some (POST env axios_post pick utility_sum endpoint options)
  ∧ (∀ fuel, 2 ≤ fuel →
       POST_fuel env axios_post pick utility_sum fuel endpoint options
       = POST env axios_post pick utility_sum endpoint options).
Proof.
  split; [|split].
  - intros o c l ch Hch Hin. split; [|by eapply chunk_not_rechunked].
    pose proof (_chunk_bounds l (chunk_length c)) as Hb.
    rewrite Forall_forall in Hb. by destruct (Hb ch Hin).
  - apply POST_fuel_total.
  - intros fuel Hfuel. destruct fuel as [|[|fuel]]; [lia..|].
    apply POST_fuel_enough.
Qed.

(** ** The empty list *)

(** C8 as stated fails: with the configured chunk length 5000 the empty
    list of calls is posted like any other list, in one request. *)
Lemma POST_empty_batch_counterexample :
  requests (POST Run.env1 Run.echo Run.in_order Run.no_sum "/abi/multiCall"
              (Some (Run.multiCall 5000 [])))
  = Some [("https://api/key/abi/multiCall", Some (Run.multiCall 5000 []))]
  ∧ requests (POST Run.env1 Run.echo Run.in_order Run.no_sum "/abi/multiCall"
                (Some (Run.multiCall 5000 [])))
    ≠ Some [].
Proof. split; [reflexivity | discriminate]. Qed.

(** C8, amended.  For the empty list and a chunk length that is not
    negative (or no chunk configuration), POST does not take the chunking
    branch: it issues exactly one request, carrying the options unchanged,
    and settles to the answer of that request. *)
Theorem POST_empty_batch_one_request env axios_post pick utility_sum endpoint o :
  batch o = Some [] →
  (∀ c, chunk o = Some c → (0 ≤ chunk_length c)%Z) →
  POST env axios_post pick utility_sum endpoint (Some o)
  = Some (answer env axios_post endpoint (Some o), [(post_url env endpoint, Some o)]).
Proof.
  intros Hbatch Hlen. apply POST_fuel_leaf.
  unfold chunking. rewrite Hbatch.
  destruct (chunk o) as [c|] eqn:Hc; [|done].
  specialize (Hlen c eq_refl). simpl.
  destruct (Z.ltb_spec (chunk_length c) (Z.of_nat 0)); [lia | done].
Qed.

Lemma POST_empty_batch_one_request_witness :
  POST Run.env1 Run.echo Run.in_order Run.no_sum "/abi/multiCall"
    (Some (Run.multiCall 5000 []))
  = Some (answer Run.env1 Run.echo "/abi/multiCall" (Some (Run.multiCall 5000 [])),
          [(post_url Run.env1 "/abi/multiCall", Some (Run.multiCall 5000 []))]).
Proof.
  apply (POST_empty_batch_one_request Run.env1 Run.echo Run.in_order Run.no_sum
           "/abi/multiCall" (Run.multiCall 5000 [])).
  - reflexivity.
  - intros c [= <-]. simpl. lia.
Defined.

(** ** Failures *)

(** C3 as stated fails: the error of a failed chunk is caught and trimmed
    before it is rethrown. *)
Lemma POST_failure_counterexample :
  settled (POST Run.env1 Run.failing Run.in_order Run.no_sum "/abi/multiCall"
             (Some (Run.multiCall 1 [Run.call "a"; Run.call "b"])))
  = Some (Throw (maybePreSerializeAxiosError Run.status500))
  ∧ maybePreSerializeAxiosError Run.status500 ≠ Run.status500.
Proof.
  split; [by vm_compute|].
  intros H. apply (f_equal request) in H. discriminate H.
Qed.

(** The first chunk, in a given order, whose request fails, and the
    answers of the chunks before it. *)
Lemma first_Throw {A B} (g : A → Res B) (l : list A) x e :
  x ∈ l → g x = Throw e →
  ∃ before failed after ds e',
    l = before ++ failed :: after
    ∧ Forall2 (λ a d, g a = Ok d) before ds
    ∧ g failed = Throw e'.
Proof.
  induction l as [|a l IH]; intros Hin Hx; [by apply elem_of_nil in Hin|].
  destruct (g a) as [d|e'] eqn:Ha.
  - apply elem_of_cons in Hin as [->|Hin]; [congruence|].
    destruct (IH Hin Hx) as (before & failed & after & ds & e' & -> & Hbefore & Hfailed).
    exists (a :: before), failed, after, (d :: ds), e'.
    split; [done|]. split; [by constructor | done].
  - exists [], a, l, [], e'. split; [done|]. split; [constructor | done].
Qed.

Lemma replay_app_Throw c ds e rest st :
  replay c ((Ok <$> ds) ++ Throw e :: rest) st
  = match replay c (Ok <$> ds) st with
    | Ok _ => Throw e
    | Throw e' => Throw e'
    end.
Proof.
  revert st. induction ds as [|d ds IH]; intros st; simpl; [done|].
  by destruct (processRequest c d st).
Qed.

(** [processRequest] throws on an answer exactly when its count is truthy,
    the mode is 'array' and its output cannot be spread. *)
Lemma processRequest_combines c d st :
  (truthy_count (data_ethCallCount d) = true → chunk_combine c = "array" →
   ∃ xs, spread (data_output d) = Ok xs) →
  ∃ st', processRequest c d st = Ok st'.
Proof.
  intros Hgood. unfold processRequest.
  destruct (truthy_count (data_ethCallCount d)); [|by eexists].
  destruct (String.eqb_spec (chunk_combine c) "array") as [Harray|].
  - destruct (Hgood eq_refl Harray) as [xs ->]. by eexists.
  - destruct (String.eqb (chunk_combine c) "balances"); by eexists.
Qed.

Lemma processRequest_not_iterable c d st e :
  truthy_count (data_ethCallCount d) = true →
  chunk_combine c = "array" →
  spread (data_output d) = Throw e →
  processRequest c d st = Throw (TypeError "call.output is not iterable").
Proof.
  intros Htruthy Harray Hspread. unfold processRequest.
  rewrite Htruthy, Harray. simpl.
  destruct (spread (data_output d)) as [xs|e'] eqn:Hs; [done|].
  f_equal. destruct (data_output d); simpl in Hs; congruence.
Qed.

Lemma replay_all_combine c ds st :
  Forall (λ d, truthy_count (data_ethCallCount d) = true → chunk_combine c = "array" →
               ∃ xs, spread (data_output d) = Ok xs) ds →
  ∃ st', replay c (Ok <$> ds) st = Ok st'.
Proof.
  intros Hall. revert st. induction Hall as [|d ds Hd _ IH]; intros st; simpl.
  - by eexists.
  - destruct (processRequest_combines c d st Hd) as [st1 ->]. apply IH.
Qed.

Lemma replay_some_not_iterable c ds st :
  Exists (λ d, truthy_count (data_ethCallCount d) = true ∧ chunk_combine c = "array"
               ∧ ∃ e, spread (data_output d) = Throw e) ds →
  replay c (Ok <$> ds) st = Throw (TypeError "call.output is not iterable").
Proof.
  intros Hex. revert st.
  induction Hex as [d ds (Htruthy & Harray & e & Hspread)|d ds _ IH]; intros st; simpl.
  - by rewrite (processRequest_not_iterable c d st e).
  - destruct (processRequest c d st) as [st1|e] eqn:Hp; [apply IH|].
    f_equal. by eapply processRequest_Throw.
Qed.

(** C3, amended.  If the request of any chunk fails, POST rejects and hands
    back no result.  Take the chunks in their order of completion and let
    [failed] be the first one whose request fails, with error [error'].
    When every answer completed before it can be combined, POST rejects
    with [error'] as returned by [maybePreSerializeAxiosError]: the same
    error when it has no [response], otherwise with [response] and [config]
    trimmed and [request] removed.  When an earlier answer has a truthy
    [ethCallCount] and, in 'array' mode, an output that is not iterable,
    POST rejects with the TypeError raised while combining that answer. *)
Theorem POST_chunk_failure_rejects env axios_post pick utility_sum endpoint
    options o c l ch error :
  chunking options = Ok (Some (o, c, l)) →
  ch ∈ _chunk l (chunk_length c) →
  axios_post (post_url env endpoint) (Some (set_batch o ch)) = Throw error →
  ∃ before failed after answers error',
    completion_order (maxConcurrent env) pick (_chunk l (chunk_length c))
    = before ++ failed :: after
    ∧ Forall2 (λ ch' d, axios_post (post_url env endpoint) (Some (set_batch o ch')) = Ok d)
        before answers
    ∧ axios_post (post_url env endpoint) (Some (set_batch o failed)) = Throw error'
    ∧ (∃ e, settled (POST env axios_post pick utility_sum endpoint options)
            = Some (Throw e))
    ∧ (Forall (λ d, truthy_count (data_ethCallCount d) = true →
                    chunk_combine c = "array" →
                    ∃ xs, spread (data_output d) = Ok xs) answers →
       settled (POST env axios_post pick utility_sum endpoint options)
       = Some (Throw (maybePreSerializeAxiosError error')))
    ∧ (Exists (λ d, truthy_count (data_ethCallCount d) = true
                    ∧ chunk_combine c = "array"
                    ∧ ∃ e, spread (data_output d) = Throw e) answers →
       settled (POST env axios_post pick utility_sum endpoint options)
       = Some (Throw (TypeError "call.output is not iterable")))
    ∧ (response error' = None → maybePreSerializeAxiosError error' = error').
Proof.
  intros Hch Hin Hfail.
  set (order := completion_order (maxConcurrent env) pick (_chunk l (chunk_length c))).
  assert (ch ∈ order) as Hin'.
  { unfold order. by rewrite completion_order_Permutation by apply maxConcurrent_pos. }
  destruct (first_Throw
              (λ ch', axios_post (post_url env endpoint) (Some (set_batch o ch')))
              order ch error Hin' Hfail)
    as (before & failed & after & answers & error' & Horder & Hbefore & Hfailed).
  exists before, failed, after, answers, error'.
  split; [done|]. split; [done|]. split; [done|].
  assert (settled (POST env axios_post pick utility_sum endpoint options)
          = Some (match replay c (Ok <$> answers)
                          {| st_ethCallCount := 0; st_output := []; st_complete := 0 |} with
                  | Ok _ => Throw (maybePreSerializeAxiosError error')
                  | Throw e => Throw (maybePreSerializeAxiosError e)
                  end)) as ->.
  { unfold POST. rewrite (POST_fuel_chunked _ _ _ _ 0 endpoint options o c l Hch).
    rewrite completion_order_fmap. fold order. rewrite Horder, fmap_app, fmap_cons.
    assert ((λ ch', answer env axios_post endpoint (Some (set_batch o ch'))) <$> before
            = Ok <$> answers) as ->.
    { clear -Hbefore. induction Hbefore as [|ch' d before answers Hd _ IH]; simpl; [done|].
      f_equal; [|exact IH]. unfold answer. by rewrite Hd. }
    unfold answer at 1. rewrite Hfailed, replay_app_Throw.
    destruct (replay c (Ok <$> answers) _); simpl; [|done].
    by rewrite maybePreSerializeAxiosError_idemp. }
  split; [|split; [|split]].
  - destruct (replay c (Ok <$> answers) _); by eexists.
  - intros Hall. by destruct (replay_all_combine c answers
                                {| st_ethCallCount := 0; st_output := []; st_complete := 0 |}
                                Hall) as [st' ->].
  - intros Hex. by rewrite replay_some_not_iterable.
  - apply maybePreSerializeAxiosError_no_response.
Qed.

Lemma POST_chunk_failure_rejects_witness :
  ∃ before failed after answers error',
    completion_order (maxConcurrent Run.env1) Run.in_order
      (_chunk [Run.call "a"; Run.call "b"]
         (chunk_length {| chunk_param := "calls"; chunk_length := 1;
                          chunk_combine := "array" |}))
    = before ++ failed :: after
    ∧ Forall2 (λ ch' d, Run.failing (post_url Run.env1 "/abi/multiCall")
                          (Some (set_batch (Run.multiCall 1 [Run.call "a"; Run.call "b"]) ch'))
                        = Ok d)
        before answers
    ∧ Run.failing (post_url Run.env1 "/abi/multiCall")
        (Some (set_batch (Run.multiCall 1 [Run.call "a"; Run.call "b"]) failed))
      = Throw error'
    ∧ (∃ e, settled (POST Run.env1 Run.failing Run.in_order Run.no_sum "/abi/multiCall"
                       (Some (Run.multiCall 1 [Run.call "a"; Run.call "b"])))
            = Some (Throw e))
    ∧ (Forall (λ d, truthy_count (data_ethCallCount d) = true →
                    chunk_combine {| chunk_param := "calls"; chunk_length := 1;
                                     chunk_combine := "array" |} = "array" →
                    ∃ xs, spread (data_output d) = Ok xs) answers →
       settled (POST Run.env1 Run.failing Run.in_order Run.no_sum "/abi/multiCall"
                  (Some (Run.multiCall 1 [Run.call "a"; Run.call "b"])))
       = Some (Throw (maybePreSerializeAxiosError error')))
    ∧ (Exists (λ d, truthy_count (data_ethCallCount d) = true
                    ∧ chunk_combine {| chunk_param := "calls"; chunk_length := 1;
                                       chunk_combine := "array" |} = "array"
                    ∧ ∃ e, spread (data_output d) = Throw e) answers →
       settled (POST Run.env1 Run.failing Run.in_order Run.no_sum "/abi/multiCall"
                  (Some (Run.multiCall 1 [Run.call "a"; Run.call "b"])))
       = Some (Throw (TypeError "call.output is not iterable")))
    ∧ (response error' = None → maybePreSerializeAxiosError error' = error').
Proof.
  apply (POST_chunk_failure_rejects Run.env1 Run.failing Run.in_order Run.no_sum
           "/abi/multiCall" (Some (Run.multiCall 1 [Run.call "a"; Run.call "b"]))
           (Run.multiCall 1 [Run.call "a"; Run.call "b"])
           {| chunk_param := "calls"; chunk_length := 1; chunk_combine := "array" |}
           [Run.call "a"; Run.call "b"] [Run.call "b"] Run.status500).
  - reflexivity.
  - vm_compute. apply list_elem_of_further, list_elem_of_here.
  - reflexivity.
Defined.

(** ** Counts and outputs *)

(** C1 as stated fails: an answer without [ethCallCount] is skipped
    together with its output.  Two calls are submitted in chunks of one; the
    answer to the second chunk carries the output for "b" but no count, and
    the combined result has one output and a count of 1. *)
Lemma POST_uncounted_chunk_counterexample :
  Run.uncounted (post_url Run.env1 "/abi/multiCall")
    (Some (set_batch (Run.multiCall 1 [Run.call "a"; Run.call "b"]) [Run.call "b"]))
  = Ok (DResult {| ethCallCount := None; output := OArray [OResult (OString "b")] |})
  ∧ settled (POST Run.env1 Run.uncounted Run.in_order Run.no_sum "/abi/multiCall"
               (Some (Run.multiCall 1 [Run.call "a"; Run.call "b"])))
    = Some (Ok (DResult {| ethCallCount := Some 1%Z;
                           output := OArray [OResult (OString "a")] |})).
Proof. split; reflexivity. Qed.

(** In 'array' mode a fulfilled POST is the combination of the answers
    taken in their order of completion. *)
Lemma POST_array_combined env axios_post pick utility_sum endpoint options o c l d :
  chunking options = Ok (Some (o, c, l)) →
  chunk_combine c = "array" →
  settled (POST env axios_post pick utility_sum endpoint options) = Some (Ok d) →
  ∃ calls,
    Ok <$> calls
    = (λ ch, answer env axios_post endpoint (Some (set_batch o ch)))
        <$> completion_order (maxConcurrent env) pick (_chunk l (chunk_length c))
    ∧ d = DResult {| ethCallCount := Some (sum_counts calls);
                     output := OArray (concat (contributed <$> calls)) |}.
Proof.
  intros Hch Harray. unfold POST.
  rewrite (POST_fuel_chunked _ _ _ _ 0 endpoint options o c l Hch).
  rewrite completion_order_fmap.
  destruct (replay c _ _) as [st|e] eqn:Hreplay; [|done].
  intros [= <-].
  apply (replay_array _ _ _ _ Harray) in Hreplay as (calls & Hcalls & Hcount & Hout).
  simpl in Hcount, Hout.
  exists calls. by rewrite Hcount, Hout, Harray.
Qed.

(** C1, amended.  In 'array' mode a fulfilled POST returns the sum of the
    [ethCallCount]s of the chunk answers whose [ethCallCount] is truthy, and
    an output made of the outputs of exactly those answers; an answer with a
    zero or missing [ethCallCount] adds nothing.  Every chunk is answered
    exactly once: the answers are those of a permutation of the chunks.
    Hence, when the chunk length is at least 1 and every answer reports as
    many calls as its chunk has descriptors and carries one output per
    descriptor, the count equals the number of descriptors submitted and so
    does the number of outputs. *)
Theorem POST_array_accumulates env axios_post pick utility_sum endpoint options o c l d :
  chunking options = Ok (Some (o, c, l)) →
  chunk_combine c = "array" →
  settled (POST env axios_post pick utility_sum endpoint options) = Some (Ok d) →
  ∃ order calls,
    order ≡ₚ _chunk l (chunk_length c)
    ∧ Ok <$> calls
      = (λ ch, answer env axios_post endpoint (Some (set_batch o ch))) <$> order
    ∧ d = DResult {| ethCallCount := Some (sum_counts calls);
                     output := OArray (concat (contributed <$> calls)) |}
    ∧ ((1 ≤ chunk_length c)%Z →
       (∀ ch, ch ∈ _chunk l (chunk_length c) →
          ∃ xs, answer env axios_post endpoint (Some (set_batch o ch))
                = Ok (DResult {| ethCallCount := Some (Z.of_nat (length ch));
                                 output := OArray xs |})
                ∧ length xs = length ch) →
       sum_counts calls = Z.of_nat (length l)
       ∧ length (concat (contributed <$> calls)) = length l).
Proof.
  intros Hch Harray Hd.
  destruct (POST_array_combined _ _ _ _ _ _ _ _ _ _ Hch Harray Hd) as (calls & Hcalls & ->).
  set (order := completion_order _ _ _) in *.
  assert (order ≡ₚ _chunk l (chunk_length c)) as Hperm
    by apply completion_order_Permutation, maxConcurrent_pos.
  exists order, calls.
  split; [done|]. split; [done|]. split; [done|].
  intros Hlen Hall.
  destruct (all_counted
              (λ ch, answer env axios_post endpoint (Some (set_batch o ch)))
              order calls Hcalls) as [H1 H2].
  { intros ch Hin. rewrite Hperm in Hin. split; [|by apply Hall].
    pose proof (_chunk_bounds l (chunk_length c)) as Hb.
    rewrite Forall_forall in Hb. by destruct (Hb ch Hin). }
  by rewrite H1, H2, (concat_length_Permutation _ _ Hperm), _chunk_concat.
Qed.

Lemma POST_array_accumulates_witness :
  ∃ order calls,
    order ≡ₚ _chunk [Run.call "a"; Run.call "b"; Run.call "c"] 1
    ∧ Ok <$> calls
      = (λ ch, answer Run.env2 Run.echo "/abi/multiCall"
                 (Some (set_batch (Run.multiCall 1
                                     [Run.call "a"; Run.call "b"; Run.call "c"]) ch)))
          <$> order
    ∧ DResult {| ethCallCount := Some 3%Z;
                 output := Run.outputs [Run.call "b"; Run.call "a"; Run.call "c"] |}
      = DResult {| ethCallCount := Some (sum_counts calls);
                   output := OArray (concat (contributed <$> calls)) |}
    ∧ ((1 ≤ 1)%Z →
       (∀ ch, ch ∈ _chunk [Run.call "a"; Run.call "b"; Run.call "c"] 1 →
          ∃ xs, answer Run.env2 Run.echo "/abi/multiCall"
                  (Some (set_batch (Run.multiCall 1
                                      [Run.call "a"; Run.call "b"; Run.call "c"]) ch))
                = Ok (DResult {| ethCallCount := Some (Z.of_nat (length ch));
                                 output := OArray xs |})
                ∧ length xs = length ch) →
       sum_counts calls = Z.of_nat 3
       ∧ length (concat (contributed <$> calls)) = 3).
Proof.
  apply (POST_array_accumulates Run.env2 Run.echo Run.second_first Run.no_sum
           "/abi/multiCall"
           (Some (Run.multiCall 1 [Run.call "a"; Run.call "b"; Run.call "c"]))
           (Run.multiCall 1 [Run.call "a"; Run.call "b"; Run.call "c"])
           {| chunk_param := "calls"; chunk_length := 1; chunk_combine := "array" |}
           [Run.call "a"; Run.call "b"; Run.call "c"]).
  - reflexivity.
  - reflexivity.
  - reflexivity.
Defined.

(** ** Order of the combined output *)

(** Two calls in chunks of one, ADAPTER_CONCURRENCY=2, the second chunk
    answered first: the outputs are combined in that order. *)
Example POST_array_second_chunk_first :
  settled (POST Run.env2 Run.echo Run.second_first Run.no_sum "/abi/multiCall"
             (Some (Run.multiCall 1 [Run.call "a"; Run.call "b"])))
  = Some (Ok (DResult {| ethCallCount := Some 2%Z;
                         output := Run.outputs [Run.call "b"; Run.call "a"] |})).
Proof. reflexivity. Qed.

(** C2, evaluated.  [multiCall] on the 5001 factory calls of [tvl] with
    ADAPTER_CONCURRENCY=2 makes two chunks, of 5000 calls and of 1 call.
    When the second chunk is answered first, the combined output starts with
    the answer to call 5000: it is not the input mapped in its original
    order, which ends with that answer. *)
Theorem multiCall_out_of_order :
  settled (abi_multiCall Run.env2 Run.factory Run.second_first Run.no_sum
             (multiCall_options "allPairs" (Run.allPairs_calls (Z.to_nat 5001)) None))
  = Some (Ok (DResult {| ethCallCount := Some 5001%Z;
                         output := OArray (OResult (OString "0xbbbb")
                                           :: replicate 5000 (OResult (OString "0xaaaa"))) |}))
  ∧ Run.pair_at <$> Run.allPairs_calls (Z.to_nat 5001)
    = replicate 5000 (OResult (OString "0xaaaa")) ++ [OResult (OString "0xbbbb")].
Proof. split; by vm_compute. Qed.

(** With the default concurrency of 1 the jobs finish in chunk order, and a
    fulfilled POST in 'array' mode combines the answers in that order. *)
Lemma POST_array_in_order_by_default env axios_post pick utility_sum endpoint
    options o c l d :
  ADAPTER_CONCURRENCY env = None →
  chunking options = Ok (Some (o, c, l)) →
  chunk_combine c = "array" →
  settled (POST env axios_post pick utility_sum endpoint options) = Some (Ok d) →
  ∃ calls,
    Ok <$> calls
    = (λ ch, answer env axios_post endpoint (Some (set_batch o ch)))
        <$> _chunk l (chunk_length c)
    ∧ d = DResult {| ethCallCount := Some (sum_counts calls);
                     output := OArray (concat (contributed <$> calls)) |}.
Proof.
  intros Henv Hch Harray Hd.
  destruct (POST_array_combined _ _ _ _ _ _ _ _ _ _ Hch Harray Hd)
    as (calls & Hcalls & ->).
  rewrite completion_order_default in Hcalls by done. by exists calls.
Qed.

(** ** The adapter *)

Lemma includes_elem_of (arr : list string) (x : string) :
  includes arr x = true ↔ x ∈ arr.
Proof.
  unfold includes. induction arr as [|a arr IH]; simpl.
  - split; [done | by intros ?%elem_of_nil].
  - rewrite orb_true_iff, IH, elem_of_cons, String.eqb_eq. done.
Qed.

(** C5, evaluated.  One pair whose token0 and token1 are both supported:
    the second pass stores a record spread from [pairs], not from
    [tokenPairs], so the pair keeps token1 only and yields one balance call
    where the claim announces two.  The last request of the whole run is the
    balanceOf multiCall with that single call. *)
Theorem both_tokens_supported_one_balance_call :
  build_tokenPairs ["0xaa"; "0xbb"] ["0xpair"] [OResult (OString "0xPAIR")]
    (OArray [OResult (OString "0xAA")]) (OArray [OResult (OString "0xBB")])
  = Ok [("0xpair", {| token0Address := None; token1Address := Some "0xbb" |})]
  ∧ build_balanceCalls
      [("0xpair", {| token0Address := None; token1Address := Some "0xbb" |})]
    = [{| target := "0xbb"; params := ParamsAddress "0xpair" |}]
  ∧ last <$> requests (tvl Run.env1
                         (Run.dfyn [Run.token "0xaa"; Run.token "0xbb"] (OString "1"))
                         Run.in_order Run.no_sum Run.keep Run.Number_length 0 None)
    = Some (Some ("https://api/key/abi/multiCall",
                  Some {| opt_target := None; opt_abi := Some "erc20:balanceOf";
                          opt_chain := Some "polygon"; opt_block := None;
                          batch := Some [{| target := "0xbb";
                                            params := ParamsAddress "0xpair" |}];
                          chunk := Some {| chunk_param := "calls";
                                           chunk_length := 5000;
                                           chunk_combine := "array" |} |})).
Proof. repeat split; by vm_compute. Qed.

(** C7 as stated fails: the allow-list is used as supplied.  With the entry
    "0xAA" the pair's token "0xaa", which differs from it in letter case
    only, is not found and nothing is retained. *)
Lemma supported_tokens_not_normalized_counterexample :
  settled (read_supportedTokens Run.env1
             (Run.dfyn [Run.token "0xAA"] (OString "1")) Run.in_order Run.no_sum)
  = Some (Ok ["0xAA"])
  ∧ build_tokenPairs ["0xAA"] ["0xpair"] [OResult (OString "0xPAIR")]
      (OArray [OResult (OString "0xaa")]) (OArray [OResult (OString "0xbb")])
    = Ok [].
Proof. split; by vm_compute. Qed.

Lemma or_zero_address_empty :
  or_zero_address ∅ = {[ ZERO_ADDRESS := BNumber 0 ]}.
Proof. done. Qed.

Lemma or_zero_address_nonempty (balances : gmap string BalanceValue) :
  balances ≠ ∅ → or_zero_address balances = balances.
Proof.
  intros Hne. unfold or_zero_address.
  destruct (Nat.eqb_spec (length (map_to_list balances).*1) 0) as [Hlen|]; [|done].
  rewrite length_fmap in Hlen. apply nil_length_inv, map_to_list_empty_iff in Hlen.
  done.
Qed.

Section AdapterFacts.
Variable env : Env.
Variable axios_post : string → option Options → Res Data.
Variable pick : nat → nat.
Variable utility_sum : list Output → Output.
Variable sumMultiBalanceOf :
  gmap string BalanceValue → Data → Res (gmap string BalanceValue).
Variable Number_length : Output → option nat.

Local Abbreviation tvl' :=
  (tvl env axios_post pick utility_sum sumMultiBalanceOf Number_length).
Local Abbreviation tvl_balances' :=
  (tvl_balances env axios_post pick utility_sum sumMultiBalanceOf Number_length).

(** C6.  When the balances accumulated over all chunks have no entry,
    [tvl] returns exactly the zero address mapped to the number 0;
    otherwise it returns the accumulated balances as they are.  The last
    step issues no request. *)
Theorem tvl_zero_address_fallback timestamp block balances :
  settled (tvl_balances' timestamp block) = Some (Ok balances) →
  (balances = ∅ →
     settled (tvl' timestamp block) = Some (Ok {[ ZERO_ADDRESS := BNumber 0 ]}))
  ∧ (balances ≠ ∅ → settled (tvl' timestamp block) = Some (Ok balances))
  ∧ requests (tvl' timestamp block) = requests (tvl_balances' timestamp block).
Proof.
  intros Hb. unfold tvl.
  destruct (tvl_balances' timestamp block) as [[[b|e] log]|]; [|done..].
  injection Hb as ->. simpl. rewrite app_nil_r.
  split; [by intros ->|]. split; [|done].
  intros Hne. by rewrite or_zero_address_nonempty.
Qed.

(** C9.  When the factory read answers [output: null], [tvl] throws
    "allPairsLength() failed".  By then it has issued two requests, the
    token list and the factory read: the read is not repeated and no other
    call follows. *)
Theorem tvl_null_pairLength_aborts timestamp block tokens r :
  axios_post (post_url env "/util/supportedTokens") None = Ok (DTokens tokens) →
  axios_post (post_url env "/abi/call") (Some (allPairsLength_options block)) = Ok r →
  data_output r = ONull →
  tvl' timestamp block
  = Some (Throw (Error "allPairsLength() failed"),
          [(post_url env "/util/supportedTokens", None);
           (post_url env "/abi/call", Some (allPairsLength_options block))]).
Proof.
  intros Htokens Hcall Hnull.
  unfold tvl, tvl_balances, read_supportedTokens, supportedTokens_endpoint,
    read_pairNums, abi_call, POST.
  rewrite !POST_fuel_leaf by done.
  unfold answer. rewrite Htokens, Hcall. simpl. by rewrite Hnull.
Qed.

End AdapterFacts.

Lemma tvl_zero_address_fallback_witness :
  ((∅ : gmap string BalanceValue) = ∅ →
     settled (tvl Run.env1 (Run.dfyn [] (OString "1")) Run.in_order Run.no_sum Run.keep
                Run.Number_length 0 None)
     = Some (Ok {[ ZERO_ADDRESS := BNumber 0 ]}))
  ∧ ((∅ : gmap string BalanceValue) ≠ ∅ →
     settled (tvl Run.env1 (Run.dfyn [] (OString "1")) Run.in_order Run.no_sum Run.keep
                Run.Number_length 0 None)
     = Some (Ok ∅))
  ∧ requests (tvl Run.env1 (Run.dfyn [] (OString "1")) Run.in_order Run.no_sum Run.keep
                Run.Number_length 0 None)
    = requests (tvl_balances Run.env1 (Run.dfyn [] (OString "1")) Run.in_order
                  Run.no_sum Run.keep Run.Number_length 0 None).
Proof.
  apply (tvl_zero_address_fallback Run.env1 (Run.dfyn [] (OString "1")) Run.in_order
           Run.no_sum Run.keep Run.Number_length 0 None ∅).
  vm_compute. reflexivity.
Defined.

Lemma tvl_null_pairLength_aborts_witness :
  tvl Run.env1 (Run.dfyn [Run.token "0xaa"] ONull) Run.in_order Run.no_sum Run.keep
    Run.Number_length 0 None
  = Some (Throw (Error "allPairsLength() failed"),
          [(post_url Run.env1 "/util/supportedTokens", None);
           (post_url Run.env1 "/abi/call", Some (allPairsLength_options None))]).
Proof.
  apply (tvl_null_pairLength_aborts Run.env1 (Run.dfyn [Run.token "0xaa"] ONull)
           Run.in_order Run.no_sum Run.keep Run.Number_length 0 None
           [Run.token "0xaa"]
           (DResult {| ethCallCount := Some 1%Z; output := ONull |})).
  - reflexivity.
  - reflexivity.
  - reflexivity.
Defined.


(** * Further properties *)

(** ** The shape of the chunks *)

Section ChunkShape.
Context {A : Type}.
Implicit Types (array : list A) (result : list (list A)).

(** The loop only appends to what it has collected. *)
Lemma chunk_loop_app fuel array count i result :
  chunk_loop fuel array count i result = result ++ chunk_loop fuel array count i [].
Proof.
  revert i result. induction fuel as [|fuel IH]; intros i result; simpl.
  - by rewrite app_nil_r.
  - destruct (i <? length array); [|by rewrite app_nil_r].
    rewrite IH, (IH _ [_]). by rewrite app_assoc.
Qed.

Lemma chunk_loop_lookup fuel array count i j :
  1 ≤ count → length array - i ≤ fuel →
  chunk_loop fuel array count i [] !! j
  = if i + j * count <? length array
    then Some (take count (drop (i + j * count) array))
    else None.
Proof.
  intros Hcount. revert i j.
  induction fuel as [|fuel IH]; intros i j Hfuel; simpl.
  - destruct (Nat.ltb_spec (i + j * count) (length array)); [lia | done].
  - destruct (Nat.ltb_spec i (length array)) as [Hlt|Hge].
    + rewrite chunk_loop_app, slice_step. destruct j as [|j]; simpl.
      * rewrite Nat.add_0_r.
        destruct (Nat.ltb_spec i (length array)); [done | lia].
      * rewrite IH by lia. by replace (i + count + j * count) with (i + (count + j * count)) by lia.
    + destruct (Nat.ltb_spec (i + j * count) (length array)); [lia | done].
Qed.

Lemma chunk_loop_length fuel array count i :
  1 ≤ count → length array - i ≤ fuel →
  length (chunk_loop fuel array count i []) = (length array - i + count - 1) / count.
Proof.
  intros Hcount. revert i.
  induction fuel as [|fuel IH]; intros i Hfuel; simpl.
  - rewrite Nat.div_small; [done | lia].
  - destruct (Nat.ltb_spec i (length array)) as [Hlt|Hge].
    + rewrite chunk_loop_app, length_app, IH by lia. simpl.
      destruct (Nat.le_gt_cases (i + count) (length array)) as [Hle|Hgt].
      * replace (length array - i + count - 1)
          with ((length array - (i + count) + count - 1) + 1 * count) by lia.
        rewrite Nat.div_add by lia. lia.
      * replace (length array - (i + count) + count - 1) with (count - 1) by lia.
        rewrite Nat.div_small by lia.
        simpl. apply (Nat.div_unique _ _ _ (length array - i - 1)); lia.
    + rewrite Nat.div_small; [done | lia].
Qed.

End ChunkShape.

(** X1.  For a chunk size [M >= 1], [_.chunk] makes [ceil(N / M)] chunks out
    of [N] elements, each with at least 1 and at most [M] elements. *)
Theorem _chunk_count_and_sizes {A} (array : list A) (M : Z) :
  (1 ≤ M)%Z →
  length (_chunk array M) = (length array + Z.to_nat M - 1) / Z.to_nat M
  ∧ Forall (λ c, 1 ≤ length c ≤ Z.to_nat M) (_chunk array M).
Proof.
  intros HM. split.
  - unfold _chunk. destruct (Z.ltb_spec M 1); [lia|].
    rewrite chunk_loop_length by lia. by rewrite Nat.sub_0_r.
  - eapply Forall_impl; [apply _chunk_bounds|]. simpl. lia.
Qed.

Lemma _chunk_count_and_sizes_witness :
  length (_chunk [1; 2; 3; 4; 5; 6; 7] 3) = (7 + Z.to_nat 3 - 1) / Z.to_nat 3
  ∧ Forall (λ c, 1 ≤ length c ≤ Z.to_nat 3) (_chunk [1; 2; 3; 4; 5; 6; 7] 3).
Proof. apply (_chunk_count_and_sizes [1; 2; 3; 4; 5; 6; 7] 3). lia. Defined.

(** X2.  For a chunk size [M >= 1], chunk number [j] of [_.chunk] is
    [array.slice(j * M, j * M + M)], and there is no chunk number [j] once
    [j * M] reaches the length of the array. *)
Theorem _chunk_lookup {A} (array : list A) (M : Z) (j : nat) :
  (1 ≤ M)%Z →
  _chunk array M !! j
  = if j * Z.to_nat M <? length array
    then Some (slice array (j * Z.to_nat M) (j * Z.to_nat M + Z.to_nat M))
    else None.
Proof.
  intros HM. unfold _chunk. destruct (Z.ltb_spec M 1); [lia|].
  rewrite chunk_loop_lookup by lia. by rewrite slice_step.
Qed.

Lemma _chunk_lookup_witness :
  _chunk [1; 2; 3; 4; 5; 6; 7] 3 !! 2
  = if 2 * Z.to_nat 3 <? length [1; 2; 3; 4; 5; 6; 7]
    then Some (slice [1; 2; 3; 4; 5; 6; 7] (2 * Z.to_nat 3) (2 * Z.to_nat 3 + Z.to_nat 3))
    else None.
Proof. apply (_chunk_lookup [1; 2; 3; 4; 5; 6; 7] 3 2). lia. Defined.

(** X3.  For a chunk size of at least 1 the slicing loop of the adapter
    builds exactly the chunks that [_.chunk] builds: [count] always points
    to the end of [balanceCallChunks], so the indexed writes leave no hole
    and overwrite nothing. *)
Theorem make_balanceCallChunks_is_chunk {A} (balanceCalls : list A) (M : Z) :
  (1 ≤ M)%Z →
  make_balanceCallChunks (Z.to_nat M) balanceCalls = _chunk balanceCalls M.
Proof.
  intros HM. rewrite make_balanceCallChunks_chunk_loop.
  unfold _chunk. destruct (Z.ltb_spec M 1); [lia | done].
Qed.

Lemma make_balanceCallChunks_is_chunk_witness :
  make_balanceCallChunks (Z.to_nat 2500) [1; 2; 3] = _chunk [1; 2; 3] 2500.
Proof. apply (make_balanceCallChunks_is_chunk [1; 2; 3] 2500). lia. Defined.

(** ** Trimmed errors *)

Lemma _pick_lookup obj keys k :
  _pick obj keys !! k = if includes keys k then default ∅ obj !! k else None.
Proof.
  unfold _pick. rewrite map_lookup_filter.
  destruct (default ∅ obj !! k) as [x|]; simpl.
  - destruct (includes keys k) eqn:Hk.
    + by rewrite option_guard_True.
    + rewrite option_guard_False; [done | simpl; congruence].
  - by destruct (includes keys k).
Qed.

(** X4.  Trimming an error twice is the same as trimming it once: an error
    that went through the [catch] of a nested [POST] is not altered by the
    [catch] of the outer one. *)
Theorem maybePreSerializeAxiosError_idempotent error :
  maybePreSerializeAxiosError (maybePreSerializeAxiosError error)
  = maybePreSerializeAxiosError error.
Proof.
  unfold maybePreSerializeAxiosError at 2 3.
  destruct (response error) as [r|] eqn:Hr.
  - unfold maybePreSerializeAxiosError. simpl. by rewrite !_pick_idemp.
  - by apply maybePreSerializeAxiosError_no_response.
Qed.

(** X5.  On an error with a [response], [maybePreSerializeAxiosError] keeps
    the name and the message, deletes [request], keeps of [response]
    exactly the properties status, statusText and data with their values,
    and keeps of [config] (an empty object when there was none) exactly
    method, url and data. *)
Theorem maybePreSerializeAxiosError_keeps error r :
  response error = Some r →
  name (maybePreSerializeAxiosError error) = name error
  ∧ message (maybePreSerializeAxiosError error) = message error
  ∧ request (maybePreSerializeAxiosError error) = None
  ∧ ∃ r' c',
      response (maybePreSerializeAxiosError error) = Some r'
      ∧ config (maybePreSerializeAxiosError error) = Some c'
      ∧ (∀ k, r' !! k = if includes ["status"; "statusText"; "data"] k
                        then r !! k else None)
      ∧ (∀ k, c' !! k = if includes ["method"; "url"; "data"] k
                        then default ∅ (config error) !! k else None).
Proof.
  intros Hr. unfold maybePreSerializeAxiosError. rewrite Hr. simpl.
  repeat split. eexists _, _. repeat split.
  - intros k. by rewrite _pick_lookup.
  - intros k. by rewrite _pick_lookup.
Qed.

Lemma maybePreSerializeAxiosError_keeps_witness :
  name (maybePreSerializeAxiosError Run.status500) = name Run.status500
  ∧ message (maybePreSerializeAxiosError Run.status500) = message Run.status500
  ∧ request (maybePreSerializeAxiosError Run.status500) = None
  ∧ ∃ r' c',
      response (maybePreSerializeAxiosError Run.status500) = Some r'
      ∧ config (maybePreSerializeAxiosError Run.status500) = Some c'
      ∧ (∀ k, r' !! k = if includes ["status"; "statusText"; "data"] k
                        then (<["status" := "500"]> (<["headers" := "content-type"]> ∅)
                               : gmap string string) !! k
                        else None)
      ∧ (∀ k, c' !! k = if includes ["method"; "url"; "data"] k
                        then default ∅ (config Run.status500) !! k else None).
Proof.
  apply (maybePreSerializeAxiosError_keeps Run.status500
           (<["status" := "500"]> (<["headers" := "content-type"]> ∅))).
  reflexivity.
Defined.

(** ** Which branch POST takes *)

Lemma start_many_nil post k running :
  start_many post k [] running = Some (Ok ([], running), []).
Proof. induction k as [|k IH]; simpl; [done|]. by rewrite IH. Qed.

(** X6.  A list that is not longer than the configured chunk length is not
    chunked: POST issues exactly one request, carrying the options
    unchanged, and settles to the answer of that request. *)
Theorem POST_short_batch_one_request env axios_post pick utility_sum endpoint o l :
  batch o = Some l →
  (∀ c, chunk o = Some c → (Z.of_nat (length l) ≤ chunk_length c)%Z) →
  POST env axios_post pick utility_sum endpoint (Some o)
  = Some (answer env axios_post endpoint (Some o), [(post_url env endpoint, Some o)]).
Proof.
  intros Hbatch Hlen. apply POST_fuel_leaf.
  unfold chunking. rewrite Hbatch.
  destruct (chunk o) as [c|] eqn:Hc; [|done].
  specialize (Hlen c eq_refl).
  destruct (Z.ltb_spec (chunk_length c) (Z.of_nat (length l))); [lia | done].
Qed.

Lemma POST_short_batch_one_request_witness :
  POST Run.env1 Run.echo Run.in_order Run.no_sum "/abi/multiCall"
    (Some (Run.multiCall 2 [Run.call "a"; Run.call "b"]))
  = Some (answer Run.env1 Run.echo "/abi/multiCall"
            (Some (Run.multiCall 2 [Run.call "a"; Run.call "b"])),
          [(post_url Run.env1 "/abi/multiCall",
            Some (Run.multiCall 2 [Run.call "a"; Run.call "b"]))]).
Proof.
  apply (POST_short_batch_one_request Run.env1 Run.echo Run.in_order Run.no_sum
           "/abi/multiCall" (Run.multiCall 2 [Run.call "a"; Run.call "b"])
           [Run.call "a"; Run.call "b"]).
  - reflexivity.
  - intros c [= <-]. simpl. lia.
Defined.

(** X7.  With a chunk configuration but without the list it names, POST
    rejects with the TypeError of reading [.length] of [undefined], and no
    request is issued. *)
Theorem POST_missing_batch_rejects env axios_post pick utility_sum endpoint o c :
  chunk o = Some c →
  batch o = None →
  POST env axios_post pick utility_sum endpoint (Some o)
  = Some (Throw (TypeError "Cannot read properties of undefined (reading 'length')"), []).
Proof.
  intros Hc Hbatch. unfold POST. rewrite POST_fuel_unfold.
  unfold chunking. by rewrite Hc, Hbatch.
Qed.

Lemma POST_missing_batch_rejects_witness :
  POST Run.env1 Run.echo Run.in_order Run.no_sum "/abi/multiCall"
    (Some {| opt_target := None; opt_abi := Some "token0"; opt_chain := None;
             opt_block := None; batch := None;
             chunk := Some {| chunk_param := "calls"; chunk_length := 5000;
                              chunk_combine := "array" |} |})
  = Some (Throw (TypeError "Cannot read properties of undefined (reading 'length')"), []).
Proof.
  apply (POST_missing_batch_rejects Run.env1 Run.echo Run.in_order Run.no_sum
           "/abi/multiCall" _
           {| chunk_param := "calls"; chunk_length := 5000; chunk_combine := "array" |}).
  - reflexivity.
  - reflexivity.
Defined.

(** X8.  With a chunk length below 1 and a list longer than it, [_.chunk]
    yields no chunk at all: POST issues no request and fulfils with an
    [ethCallCount] of 0 and an empty output ([utility.sum] of the empty
    array in 'balances' mode), whatever the list holds. *)
Theorem POST_chunk_length_below_one env axios_post pick utility_sum endpoint o c l :
  chunk o = Some c →
  batch o = Some l →
  (chunk_length c < 1)%Z →
  (chunk_length c < Z.of_nat (length l))%Z →
  POST env axios_post pick utility_sum endpoint (Some o)
  = Some (Ok (DResult {| ethCallCount := Some 0%Z;
                         output := if String.eqb (chunk_combine c) "balances"
                                   then utility_sum []
                                   else OArray [] |}), []).
Proof.
  intros Hc Hbatch Hlow Hlen. unfold POST. rewrite POST_fuel_unfold.
  unfold chunking. rewrite Hc, Hbatch.
  destruct (Z.ltb_spec (chunk_length c) (Z.of_nat (length l))); [|lia].
  rewrite lift_Ok_bind. unfold _chunk.
  destruct (Z.ltb_spec (chunk_length c) 1); [|lia].
  unfold schedule_all. simpl imap. rewrite start_many_nil. done.
Qed.

Lemma POST_chunk_length_below_one_witness :
  POST Run.env1 Run.echo Run.in_order Run.no_sum "/abi/multiCall"
    (Some (Run.multiCall 0 [Run.call "a"; Run.call "b"]))
  = Some (Ok (DResult {| ethCallCount := Some 0%Z;
                         output := if String.eqb "array" "balances"
                                   then Run.no_sum []
                                   else OArray [] |}), []).
Proof.
  apply (POST_chunk_length_below_one Run.env1 Run.echo Run.in_order Run.no_sum
           "/abi/multiCall" (Run.multiCall 0 [Run.call "a"; Run.call "b"])
           {| chunk_param := "calls"; chunk_length := 0; chunk_combine := "array" |}
           [Run.call "a"; Run.call "b"]).
  - reflexivity.
  - reflexivity.
  - simpl. lia.
  - simpl. lia.
Defined.

(** ** The requests of a chunked POST *)

Lemma snd_imap_pair {A} (f : nat → nat) (l : list A) :
  snd <$> imap (λ i c, (f i, c)) l = l.
Proof.
  revert f. induction l as [|x l IH]; intros f; simpl; [done|].
  f_equal. apply (IH (f ∘ S)).
Qed.

Section JobRequests.
Variable pick : nat → nat.
Variable cfg : ChunkConfig.
Variable post : list Call → M Data.
Variable result_of : list Call → Res Data.
Variable reqs_of : list Call → list Request.

Local Abbreviation job := (λ q : nat * list Call, (q.1, result_of q.2)).
Local Abbreviation settles :=
  (λ q : nat * list Call, post q.2 = Some (result_of q.2, reqs_of q.2)).
Local Abbreviation sent := (λ qs : list (nat * list Call), concat ((reqs_of ∘ snd) <$> qs)).

Lemma start_next_requests queued running :
  Forall settles queued →
  start_next post queued running
  = Some (Ok (tail queued, running ++ (job <$> take 1 queued)), sent (take 1 queued)).
Proof.
  destruct queued as [|[i c] queued]; simpl; intros H.
  - by rewrite app_nil_r.
  - apply Forall_cons_1 in H as [Hpost _]. simpl in Hpost.
    unfold mbind, M_bind, bind, attempt. by rewrite Hpost.
Qed.

Lemma start_many_requests k queued running :
  Forall settles queued →
  start_many post k queued running
  = Some (Ok (drop k queued, running ++ (job <$> take k queued)), sent (take k queued)).
Proof.
  revert queued running. induction k as [|k IH]; intros queued running H; simpl.
  - by rewrite app_nil_r.
  - rewrite start_next_requests by done.
    unfold mbind, M_bind, bind. rewrite IH by (by apply Forall_tail).
    destruct queued as [|q queued]; simpl.
    + by rewrite ?drop_nil, ?take_nil, ?app_nil_r.
    + by rewrite ?take_0, <- ?app_assoc, ?app_nil_r.
Qed.

(** The requests go out in the order of the queue; when [Promise.all]
    fulfils, the whole queue has been sent. *)
Lemma run_jobs_requests turns t queued running st :
  Forall settles queued →
  ∃ k r,
    run_jobs pick post cfg turns t queued running st = Some (r, sent (take k queued))
    ∧ ((∃ st', r = Ok st') →
       length queued ≤ turns → (queued ≠ [] → running ≠ []) →
       take k queued = queued).
Proof.
  revert t queued running st.
  induction turns as [|turns IH]; intros t queued running st H; cbn [run_jobs].
  - exists 0, (Ok st). split; [done|]. intros _ Hlen _.
    destruct queued; [done | simpl in Hlen; lia].
  - destruct (running !! _) as [[i r]|] eqn:Hk.
    + destruct r as [call|e].
      2:{ exists 0, (Throw e). split; [done|]. by intros [st' ?]. }
      rewrite lift_Ok_bind.
      destruct (processRequest cfg call st) as [st1|e].
      2:{ exists 0, (Throw e). split; [done|]. by intros [st' ?]. }
      rewrite lift_Ok_bind, start_next_requests by done.
      destruct (IH (S t) (tail queued)
                  (delete (pick t `mod` length running) running ++ (job <$> take 1 queued))
                  st1) as (k & r & Hrun & Hall); [by apply Forall_tail|].
      unfold mbind, M_bind, bind. rewrite Hrun.
      destruct queued as [|q queued].
      * exists 0, r. split; [by destruct k|]. done.
      * exists (S k), r. simpl in *. split; [by rewrite app_nil_r|].
        intros Hok Hlen _. f_equal. apply Hall; [done | lia|].
        intros _. by destruct (delete _ running).
    + exists 0, (Ok st). split; [done|]. intros _ _ Hne.
      destruct queued as [|q queued]; [done|].
      destruct running as [|x running]; [by destruct Hne|].
      apply lookup_ge_None in Hk.
      pose proof (Nat.mod_upper_bound (pick t) (length (x :: running))) as Hlt.
      simpl in *. lia.
Qed.

Lemma schedule_all_requests env chunks :
  Forall (λ ch, post ch = Some (result_of ch, reqs_of ch)) chunks →
  ∃ k r,
    schedule_all env pick post cfg chunks = Some (r, concat (reqs_of <$> take k chunks))
    ∧ ((∃ st', r = Ok st') → take k chunks = chunks).
Proof.
  intros H. unfold schedule_all.
  set (items := imap (λ i c, (i, c)) chunks).
  assert (snd <$> items = chunks) as Hitems by apply (snd_imap_pair id).
  assert (Forall settles items) as Hall.
  { apply (Forall_imap_snd (λ c, post c = Some (result_of c, reqs_of c)) id), H. }
  rewrite start_many_requests by done.
  destruct (run_jobs_requests (length chunks) 0 (drop (maxConcurrent env) items)
              ([] ++ (job <$> take (maxConcurrent env) items))
              {| st_ethCallCount := 0; st_output := []; st_complete := 0 |})
    as (k & r & Hrun & Hfull); [by apply Forall_drop|].
  unfold mbind, M_bind, bind. rewrite Hrun.
  exists (maxConcurrent env + k), r. split.
  - f_equal. f_equal.
    rewrite <- concat_app, <- fmap_app, take_take_drop.
    by rewrite list_fmap_compose, fmap_take, Hitems.
  - intros Hok.
    assert (length items = length chunks) as Hlen by (by rewrite <- Hitems, length_fmap).
    rewrite <- Hitems, <- fmap_take, <- take_take_drop, Hfull, take_drop; [done..| |].
    + rewrite length_drop. lia.
    + simpl. intros Hq Ht. apply Hq.
      pose proof (maxConcurrent_pos env).
      destruct items as [|? items']; [by rewrite drop_nil|].
      destruct (maxConcurrent env); [lia | done].
Qed.

End JobRequests.

Lemma requests_try_catch {A} (m : M A) (h : JsError → JsError) :
  requests (try_catch m (λ error, throw (h error))) = requests m.
Proof. destruct m as [[[a|e] log]|]; simpl; by rewrite ?app_nil_r. Qed.

Lemma requests_bind_mret {A B} (m : M A) (f : A → B) :
  requests (m ≫= λ a, mret (f a)) = requests m.
Proof. destruct m as [[[a|e] log]|]; simpl; by rewrite ?app_nil_r. Qed.

(** X9.  In the chunking branch the requests are sent in chunk order, one
    per chunk, each carrying the options with the list replaced by the
    chunk: by the time POST settles it has sent the requests of the first
    [k] chunks for some [k], none of them twice, and of all the chunks when
    it fulfils. *)
Theorem POST_requests_in_chunk_order env axios_post pick utility_sum endpoint
    options o c l :
  chunking options = Ok (Some (o, c, l)) →
  ∃ k,
    requests (POST env axios_post pick utility_sum endpoint options)
    = Some ((λ ch, (post_url env endpoint, Some (set_batch o ch)))
              <$> take k (_chunk l (chunk_length c)))
    ∧ (∀ d, settled (POST env axios_post pick utility_sum endpoint options) = Some (Ok d) →
            take k (_chunk l (chunk_length c)) = _chunk l (chunk_length c)).
Proof.
  intros Hch. unfold POST. rewrite POST_fuel_unfold, Hch, lift_Ok_bind.
  rewrite requests_try_catch, requests_bind_mret, settled_try_catch, settled_bind_mret.
  destruct (schedule_all_requests pick c
              (λ ch, POST_fuel env axios_post pick utility_sum 1 endpoint
                       (Some (set_batch o ch)))
              (λ ch, answer env axios_post endpoint (Some (set_batch o ch)))
              (λ ch, [(post_url env endpoint, Some (set_batch o ch))])
              env (_chunk l (chunk_length c))) as (k & r & Hrun & Hfull).
  { apply Forall_forall. intros ch Hin. apply POST_fuel_leaf.
    by eapply chunk_not_rechunked. }
  rewrite Hrun. exists k. split.
  - simpl. f_equal. generalize (take k (_chunk l (chunk_length c))).
    intros chs. induction chs as [|ch chs IH]; simpl; [done | by f_equal].
  - intros d Hd. apply Hfull. simpl in Hd. destruct r as [st'|e]; [by eexists | done].
Qed.

Lemma POST_requests_in_chunk_order_witness :
  ∃ k,
    requests (POST Run.env2 Run.failing Run.second_first Run.no_sum "/abi/multiCall"
                (Some (Run.multiCall 1 [Run.call "a"; Run.call "b"; Run.call "c"])))
    = Some ((λ ch, (post_url Run.env2 "/abi/multiCall",
                    Some (set_batch
                            (Run.multiCall 1 [Run.call "a"; Run.call "b"; Run.call "c"]) ch)))
              <$> take k (_chunk [Run.call "a"; Run.call "b"; Run.call "c"] 1))
    ∧ (∀ d, settled (POST Run.env2 Run.failing Run.second_first Run.no_sum "/abi/multiCall"
                       (Some (Run.multiCall 1 [Run.call "a"; Run.call "b"; Run.call "c"])))
            = Some (Ok d) →
            take k (_chunk [Run.call "a"; Run.call "b"; Run.call "c"] 1)
            = _chunk [Run.call "a"; Run.call "b"; Run.call "c"] 1).
Proof.
  apply (POST_requests_in_chunk_order Run.env2 Run.failing Run.second_first Run.no_sum
           "/abi/multiCall"
           (Some (Run.multiCall 1 [Run.call "a"; Run.call "b"; Run.call "c"]))
           (Run.multiCall 1 [Run.call "a"; Run.call "b"; Run.call "c"])
           {| chunk_param := "calls"; chunk_length := 1; chunk_combine := "array" |}
           [Run.call "a"; Run.call "b"; Run.call "c"]).
  reflexivity.
Defined.

(** ** Combining in 'balances' mode *)

Lemma replay_balances c answers st st' :
  chunk_combine c = "balances" →
  replay c answers st = Ok st' →
  ∃ calls, answers = Ok <$> calls
    ∧ st_ethCallCount st' = (st_ethCallCount st + sum_counts calls)%Z
    ∧ st_output st'
      = st_output st
        ++ concat ((λ call, if truthy_count (data_ethCallCount call)
                            then [data_output call] else []) <$> calls).
Proof.
  intros Hc. revert st.
  induction answers as [|[call|e1] answers IH]; intros st; simpl; [| |done].
  - intros [= <-]. exists []. simpl. split; [done|]. split; [lia|by rewrite app_nil_r].
  - destruct (processRequest c call st) as [st1|e] eqn:Hp; [|done].
    intros (calls & -> & Hcount & Hout)%IH.
    exists (call :: calls). split; [done|].
    rewrite Hcount, Hout. simpl.
    unfold processRequest in Hp. rewrite Hc in Hp. simpl in Hp.
    unfold counted.
    destruct (truthy_count (data_ethCallCount call)).
    + injection Hp as <-. simpl. split; [lia | by rewrite <- app_assoc].
    + injection Hp as <-. simpl. split; [lia|done].
Qed.

(** X10.  In 'balances' mode a fulfilled POST returns the sum of the
    [ethCallCount]s of the answers whose [ethCallCount] is truthy and
    [utility.sum] of the array of the outputs of exactly those answers, one
    element per answer; every chunk is answered once. *)
Theorem POST_balances_combined env axios_post pick utility_sum endpoint options o c l d :
  chunking options = Ok (Some (o, c, l)) →
  chunk_combine c = "balances" →
  settled (POST env axios_post pick utility_sum endpoint options) = Some (Ok d) →
  ∃ order calls,
    order ≡ₚ _chunk l (chunk_length c)
    ∧ Ok <$> calls
      = (λ ch, answer env axios_post endpoint (Some (set_batch o ch))) <$> order
    ∧ d = DResult
            {| ethCallCount := Some (sum_counts calls);
               output := utility_sum
                           (concat ((λ call, if truthy_count (data_ethCallCount call)
                                             then [data_output call] else [])
                                      <$> calls)) |}.
Proof.
  intros Hch Hbal. unfold POST.
  rewrite (POST_fuel_chunked _ _ _ _ 0 endpoint options o c l Hch).
  rewrite completion_order_fmap.
  destruct (replay c _ _) as [st|e] eqn:Hreplay; [|done].
  intros [= <-].
  apply (replay_balances _ _ _ _ Hbal) in Hreplay as (calls & Hcalls & Hcount & Hout).
  simpl in Hcount, Hout.
  exists (completion_order (maxConcurrent env) pick (_chunk l (chunk_length c))), calls.
  split; [apply completion_order_Permutation, maxConcurrent_pos|].
  split; [done|]. by rewrite Hcount, Hout, Hbal.
Qed.

Lemma POST_balances_combined_witness :
  ∃ order calls,
    order ≡ₚ _chunk [Run.call "a"; Run.call "b"] 1
    ∧ Ok <$> calls
      = (λ ch, answer Run.env1 Run.uncounted "/cdp/getAssetsLocked"
                 (Some (set_batch (Run.getAssetsLocked 1 [Run.call "a"; Run.call "b"]) ch)))
          <$> order
    ∧ DResult {| ethCallCount := Some 1%Z;
                 output := OArray [Run.outputs [Run.call "a"]] |}
      = DResult
          {| ethCallCount := Some (sum_counts calls);
             output := Run.collect
                         (concat ((λ call, if truthy_count (data_ethCallCount call)
                                           then [data_output call] else [])
                                    <$> calls)) |}.
Proof.
  apply (POST_balances_combined Run.env1 Run.uncounted Run.in_order Run.collect
           "/cdp/getAssetsLocked"
           (Some (Run.getAssetsLocked 1 [Run.call "a"; Run.call "b"]))
           (Run.getAssetsLocked 1 [Run.call "a"; Run.call "b"])
           {| chunk_param := "targets"; chunk_length := 1; chunk_combine := "balances" |}
           [Run.call "a"; Run.call "b"]).
  - reflexivity.
  - reflexivity.
  - reflexivity.
Defined.

(** ** Chunking seen by the caller *)

Lemma replay_array_elementwise c (f : Call → Output) (chunks : list (list Call)) st :
  chunk_combine c = "array" →
  Forall (λ ch, 1 ≤ length ch) chunks →
  replay c ((λ ch, Ok (DResult {| ethCallCount := Some (Z.of_nat (length ch));
                                  output := OArray (f <$> ch) |})) <$> chunks) st
  = Ok {| st_ethCallCount := (st_ethCallCount st + Z.of_nat (length (concat chunks)))%Z;
          st_output := st_output st ++ (f <$> concat chunks);
          st_complete := st_complete st + length chunks |}.
Proof.
  intros Hc. revert st.
  induction chunks as [|ch chunks IH]; intros st Hpos; simpl.
  - destruct st. simpl. by rewrite Z.add_0_r, app_nil_r, Nat.add_0_r.
  - apply Forall_cons_1 in Hpos as [Hch Hpos].
    unfold processRequest. rewrite Hc. simpl.
    destruct (Z.eqb_spec (Z.of_nat (length ch)) 0); [lia|]. simpl.
    rewrite IH by done. simpl.
    rewrite length_app, fmap_app, app_assoc. do 2 f_equal; lia.
Qed.

(** X11.  Chunking is invisible to the caller when one job runs at a time
    and the service answers a batch call by call: if each chunk is answered
    with one output [f call] per call and the number of its calls as
    [ethCallCount], a chunked POST in 'array' mode fulfils with the outputs
    of all the calls in their original order and the total number of
    calls. *)
Theorem POST_chunking_transparent env axios_post pick utility_sum endpoint
    options o c l (f : Call → Output) :
  maxConcurrent env = 1 →
  chunking options = Ok (Some (o, c, l)) →
  chunk_combine c = "array" →
  (1 ≤ chunk_length c)%Z →
  (∀ ch, ch ∈ _chunk l (chunk_length c) →
     axios_post (post_url env endpoint) (Some (set_batch o ch))
     = Ok (DResult {| ethCallCount := Some (Z.of_nat (length ch));
                      output := OArray (f <$> ch) |})) →
  settled (POST env axios_post pick utility_sum endpoint options)
  = Some (Ok (DResult {| ethCallCount := Some (Z.of_nat (length l));
                         output := OArray (f <$> l) |})).
Proof.
  intros Hone Hch Harray Hlen Hservice. unfold POST.
  rewrite (POST_fuel_chunked _ _ _ _ 0 endpoint options o c l Hch).
  rewrite Hone, completion_order_sequential.
  rewrite (list_fmap_ext _
             (λ ch, Ok (DResult {| ethCallCount := Some (Z.of_nat (length ch));
                                   output := OArray (f <$> ch) |}))
             (_chunk l (chunk_length c))).
  2:{ intros i ch Hi. unfold answer. rewrite Hservice; [done|].
      by eapply list_elem_of_lookup_2. }
  rewrite replay_array_elementwise; [|done|].
  2:{ eapply Forall_impl; [apply _chunk_bounds|]. simpl. tauto. }
  simpl. by rewrite _chunk_concat, Harray.
Qed.

Lemma POST_chunking_transparent_witness :
  settled (POST Run.env1 Run.echo Run.second_first Run.no_sum "/abi/multiCall"
             (Some (Run.multiCall 2 [Run.call "a"; Run.call "b"; Run.call "c"])))
  = Some (Ok (DResult
                {| ethCallCount := Some (Z.of_nat (length [Run.call "a"; Run.call "b"; Run.call "c"]));
                   output := OArray ((λ c, OResult (OString (target c)))
                                       <$> [Run.call "a"; Run.call "b"; Run.call "c"]) |})).
Proof.
  apply (POST_chunking_transparent Run.env1 Run.echo Run.second_first Run.no_sum
           "/abi/multiCall"
           (Some (Run.multiCall 2 [Run.call "a"; Run.call "b"; Run.call "c"]))
           (Run.multiCall 2 [Run.call "a"; Run.call "b"; Run.call "c"])
           {| chunk_param := "calls"; chunk_length := 2; chunk_combine := "array" |}
           [Run.call "a"; Run.call "b"; Run.call "c"]
           (λ c, OResult (OString (target c)))).
  - reflexivity.
  - reflexivity.
  - reflexivity.
  - simpl. lia.
  - intros ch Hin. reflexivity.
Defined.

(** ** What does not depend on the order of completion *)

Lemma Ok_fmap_Permutation {A} (xs ys : list A) :
  Ok <$> xs ≡ₚ Ok <$> ys → xs ≡ₚ ys.
Proof.
  intros H.
  assert (∀ zs : list A,
            omap (λ r, match r with Ok a => Some a | Throw _ => None end) (Ok <$> zs) = zs)
    as Hinv.
  { induction zs as [|z zs IH]; simpl; [done | by f_equal]. }
  rewrite <- (Hinv xs), <- (Hinv ys). by apply omap_Permutation.
Qed.

Lemma sum_counts_Permutation (xs ys : list Data) :
  xs ≡ₚ ys → sum_counts xs = sum_counts ys.
Proof. unfold sum_counts. induction 1; simpl; lia. Qed.

Lemma concat_Permutation {A} (xs ys : list (list A)) :
  xs ≡ₚ ys → concat xs ≡ₚ concat ys.
Proof.
  induction 1 as [|x xs ys _ IH|x y xs|xs ys zs _ IH1 _ IH2]; simpl.
  - done.
  - by rewrite IH.
  - rewrite !app_assoc. by rewrite (Permutation_app_comm y x).
  - by rewrite IH1.
Qed.

(** In 'array' mode [Promise.all] fulfils exactly when every answer is
    fulfilled and every counted answer can be spread. *)
Lemma replay_array_fulfils c answers st :
  chunk_combine c = "array" →
  (∃ st', replay c answers st = Ok st')
  ↔ Forall (λ a, ∃ call, a = Ok call
                 ∧ (truthy_count (data_ethCallCount call) = true →
                    ∃ xs, spread (data_output call) = Ok xs)) answers.
Proof.
  intros Hc. revert st.
  induction answers as [|[call|e] answers IH]; intros st; simpl.
  - split; [done | by eexists].
  - assert (processRequest c call st
            = if truthy_count (data_ethCallCount call)
              then match spread (data_output call) with
                   | Ok xs => Ok {| st_ethCallCount :=
                                      (st_ethCallCount st
                                       + default 0 (data_ethCallCount call))%Z;
                                    st_output := st_output st ++ xs;
                                    st_complete := S (st_complete st) |}
                   | Throw e => Throw e
                   end
              else Ok {| st_ethCallCount := st_ethCallCount st;
                         st_output := st_output st;
                         st_complete := S (st_complete st) |}) as ->.
    { unfold processRequest. by rewrite Hc. }
    rewrite Forall_cons.
    destruct (truthy_count (data_ethCallCount call)) eqn:Ht.
    + destruct (spread (data_output call)) as [xs|e] eqn:Hspread.
      * rewrite IH. split; [|by intros [_ ?]].
        intros H. split; [|done]. exists call. split; [done|]. by eexists.
      * split; [by intros [? ?]|]. intros [(call' & [= <-] & Hs) _].
        destruct (Hs Ht) as [xs Hxs]. congruence.
    + rewrite IH. split; [|by intros [_ ?]].
      intros H. split; [|done]. exists call. split; [done | congruence].
  - split; [by intros [? ?]|]. rewrite Forall_cons. by intros [(call & ? & _) _].
Qed.

(** X12.  In 'array' mode the order in which the chunks complete decides
    neither whether POST fulfils, nor the [ethCallCount] it returns, nor
    which outputs it returns: under another order of completion POST
    fulfils as well, with the same count and a permutation of the same
    outputs. *)
Theorem POST_array_up_to_order env axios_post pick1 pick2 utility_sum endpoint
    options o c l d1 :
  chunking options = Ok (Some (o, c, l)) →
  chunk_combine c = "array" →
  settled (POST env axios_post pick1 utility_sum endpoint options) = Some (Ok d1) →
  ∃ count xs1 xs2,
    d1 = DResult {| ethCallCount := Some count; output := OArray xs1 |}
    ∧ settled (POST env axios_post pick2 utility_sum endpoint options)
      = Some (Ok (DResult {| ethCallCount := Some count; output := OArray xs2 |}))
    ∧ xs1 ≡ₚ xs2.
Proof.
  intros Hch Harray Hd1.
  destruct (POST_array_combined _ _ _ _ _ _ _ _ _ _ Hch Harray Hd1)
    as (calls1 & Hcalls1 & ->).
  set (answers := (λ ch, answer env axios_post endpoint (Some (set_batch o ch)))
                    <$> _chunk l (chunk_length c)).
  set (st0 := {| st_ethCallCount := 0; st_output := []; st_complete := 0 |}).
  assert (∃ st2, replay c (completion_order (maxConcurrent env) pick2 answers) st0 = Ok st2)
    as [st2 Hst2].
  { apply (replay_array_fulfils c _ st0 Harray).
    rewrite completion_order_Permutation by apply maxConcurrent_pos.
    rewrite <- (completion_order_Permutation pick1 (maxConcurrent env) answers)
      by apply maxConcurrent_pos.
    apply (replay_array_fulfils c _ st0 Harray).
    unfold POST in Hd1.
    rewrite (POST_fuel_chunked _ _ _ _ 0 endpoint options o c l Hch) in Hd1.
    fold answers st0 in Hd1. destruct (replay c _ st0); [by eexists | done]. }
  assert (settled (POST env axios_post pick2 utility_sum endpoint options)
          = Some (combined utility_sum c (Ok st2))) as Hd2.
  { unfold POST. rewrite (POST_fuel_chunked _ _ _ _ 0 endpoint options o c l Hch).
    fold answers st0. by rewrite Hst2. }
  destruct (POST_array_combined _ _ _ _ _ _ _ _ _ _ Hch Harray Hd2)
    as (calls2 & Hcalls2 & Heq).
  assert (calls1 ≡ₚ calls2) as Hperm.
  { apply Ok_fmap_Permutation. rewrite Hcalls1, Hcalls2.
    by rewrite !completion_order_Permutation by apply maxConcurrent_pos. }
  exists (sum_counts calls1), (concat (contributed <$> calls1)),
    (concat (contributed <$> calls2)).
  split; [done|]. split.
  - rewrite Hd2. simpl in *. rewrite Heq. by rewrite (sum_counts_Permutation _ _ Hperm).
  - apply concat_Permutation. by rewrite Hperm.
Qed.

Lemma POST_array_up_to_order_witness :
  ∃ count xs1 xs2,
    DResult {| ethCallCount := Some 2%Z;
               output := Run.outputs [Run.call "b"; Run.call "a"] |}
    = DResult {| ethCallCount := Some count; output := OArray xs1 |}
    ∧ settled (POST Run.env2 Run.echo Run.in_order Run.no_sum "/abi/multiCall"
                 (Some (Run.multiCall 1 [Run.call "a"; Run.call "b"])))
      = Some (Ok (DResult {| ethCallCount := Some count; output := OArray xs2 |}))
    ∧ xs1 ≡ₚ xs2.
Proof.
  apply (POST_array_up_to_order Run.env2 Run.echo Run.second_first Run.in_order
           Run.no_sum "/abi/multiCall"
           (Some (Run.multiCall 1 [Run.call "a"; Run.call "b"]))
           (Run.multiCall 1 [Run.call "a"; Run.call "b"])
           {| chunk_param := "calls"; chunk_length := 1; chunk_combine := "array" |}
           [Run.call "a"; Run.call "b"]).
  - reflexivity.
  - reflexivity.
  - reflexivity.
Defined.

(** ** The adapter: discovery *)

Lemma truthy_string_nonempty (s : string) : truthy_string s = true ↔ s ≠ "".
Proof. by destruct s. Qed.

(** X13.  The supported tokens read by the adapter are exactly the non-empty
    'polygon-pos' addresses of the tokens answered by the service: a token
    without [platforms], without a 'polygon-pos' entry or with an empty one
    is left out. *)
Theorem read_supportedTokens_polygon_addresses env axios_post pick utility_sum tokens :
  axios_post (post_url env "/util/supportedTokens") None = Ok (DTokens tokens) →
  ∃ supportedTokens,
    settled (read_supportedTokens env axios_post pick utility_sum)
    = Some (Ok supportedTokens)
    ∧ ∀ a, a ∈ supportedTokens
           ↔ a ≠ "" ∧ ∃ token p, token ∈ tokens ∧ platforms token = Some p
                                 ∧ p !! "polygon-pos" = Some a.
Proof.
  intros Hservice. exists (filter_truthy (polygon_pos <$> tokens)). split.
  - unfold read_supportedTokens, supportedTokens_endpoint, POST.
    rewrite POST_fuel_leaf by done. unfold answer. by rewrite Hservice.
  - intros a. unfold filter_truthy. rewrite list_elem_of_omap. split.
    + intros (t & (token & -> & Hin)%list_elem_of_fmap & Ht).
      unfold polygon_pos in Ht.
      destruct (platforms token) as [p|] eqn:Hp; [|done].
      destruct (p !! "polygon-pos") as [b|] eqn:Hb; [|done].
      destruct (truthy_string b) eqn:Htruthy; [|done].
      rewrite Htruthy in Ht. injection Ht as <-.
      split; [by apply truthy_string_nonempty|]. by exists token, p.
    + intros (Hne & token & p & Hin & Hp & Ha).
      apply truthy_string_nonempty in Hne.
      exists (Some a). split.
      * apply list_elem_of_fmap. exists token. split; [|done].
        unfold polygon_pos. by rewrite Hp, Ha, Hne.
      * by rewrite Hne.
Qed.

Lemma read_supportedTokens_polygon_addresses_witness :
  ∃ supportedTokens,
    settled (read_supportedTokens Run.env1
               (Run.dfyn [Run.token "0xaa"; {| platforms := None |}; Run.token ""]
                  (OString "1"))
               Run.in_order Run.no_sum)
    = Some (Ok supportedTokens)
    ∧ ∀ a, a ∈ supportedTokens
           ↔ a ≠ "" ∧ ∃ token p,
                        token ∈ [Run.token "0xaa"; {| platforms := None |}; Run.token ""]
                        ∧ platforms token = Some p
                        ∧ p !! "polygon-pos" = Some a.
Proof.
  apply (read_supportedTokens_polygon_addresses Run.env1
           (Run.dfyn [Run.token "0xaa"; {| platforms := None |}; Run.token ""]
              (OString "1"))
           Run.in_order Run.no_sum
           [Run.token "0xaa"; {| platforms := None |}; Run.token ""]).
  reflexivity.
Defined.

(** X14.  [pairs.map(result => result.output.toLowerCase())] succeeds
    exactly when every element is an object whose [output] is a string, and
    then yields the lower-cased outputs in order; any other element (a
    failed call with [output: null], say) makes it throw. *)
Theorem pairAddresses_of_string_outputs (pairs : list Output) (pairAddresses : list string) :
  map_res output_toLowerCase pairs = Ok pairAddresses
  ↔ ∃ outputs, pairs = (λ s, OResult (OString s)) <$> outputs
               ∧ pairAddresses = toLowerCase <$> outputs.
Proof.
  revert pairAddresses. induction pairs as [|result pairs IH]; intros pairAddresses; simpl.
  - split.
    + intros [= <-]. by exists [].
    + intros (outputs & Hnil & ->). by destruct outputs.
  - split.
    + destruct (output_toLowerCase result) as [lower|e] eqn:Hlower; [|done].
      destruct (map_res output_toLowerCase pairs) as [rest|e] eqn:Hrest; [|done].
      intros [= <-]. destruct (proj1 (IH rest) eq_refl) as (outputs & -> & ->).
      destruct result as [| | |[| |s| | |]| |]; try done.
      injection Hlower as <-. by exists (s :: outputs).
    + intros (outputs & Hpairs & ->).
      destruct outputs as [|s outputs]; [done|].
      injection Hpairs as -> ->. simpl.
      by rewrite (proj2 (IH (toLowerCase <$> outputs)) (ex_intro _ outputs (conj eq_refl eq_refl))).
Qed.

Section ObjectFacts.
Context {V : Type}.
Implicit Types (obj : JsObject V) (P : string * V → Prop).

Lemma obj_set_Forall P obj key v :
  Forall P obj → P (key, v) → Forall P (obj_set obj key v).
Proof.
  intros Hobj Hv. induction obj as [|[k w] obj IH]; simpl.
  - by constructor.
  - apply Forall_cons_1 in Hobj as [Hk Hobj].
    destruct (String.eqb_spec k key) as [->|]; constructor; auto.
Qed.

Lemma obj_get_elem_of obj key v : obj_get obj key = Some v → (key, v) ∈ obj.
Proof.
  induction obj as [|[k w] obj IH]; simpl; [done|].
  destruct (String.eqb_spec k key) as [->|].
  - intros [= ->]. apply list_elem_of_here.
  - intros H. by apply list_elem_of_further, IH.
Qed.

End ObjectFacts.

Lemma forEach_res_invariant {A T} (I : T → Prop) (f : T → A → nat → Res T) arr i acc acc' :
  (∀ acc x i acc', I acc → f acc x i = Ok acc' → I acc') →
  I acc → forEach_res f arr i acc = Ok acc' → I acc'.
Proof.
  intros Hstep. revert i acc.
  induction arr as [|x arr IH]; intros i acc Hacc; simpl.
  - by intros [= <-].
  - destruct (f acc x i) as [acc1|e] eqn:Hf; [|done]. eauto.
Qed.

Lemma build_tokenPairs_invariant (I : JsObject PairRecord → Prop)
    supportedTokens pairAddresses pairs token0Addresses token1Addresses tokenPairs :
  I [] →
  (∀ acc lower i, I acc → lower ∈ supportedTokens →
     I (obj_set acc (key_at pairAddresses i)
          {| token0Address := Some lower; token1Address := None |})) →
  (∀ acc lower i, I acc → lower ∈ supportedTokens →
     I (obj_set acc (key_at pairAddresses i)
          {| token0Address := None; token1Address := Some lower |})) →
  build_tokenPairs supportedTokens pairAddresses pairs token0Addresses token1Addresses
  = Ok tokenPairs →
  I tokenPairs.
Proof.
  intros Hnil H0 H1. unfold build_tokenPairs.
  destruct (as_array token0Addresses) as [token0s|e]; [|done].
  destruct (forEach_res (add_token0 supportedTokens pairAddresses) token0s 0 [])
    as [tp0|e] eqn:Hpass0; [|done].
  destruct (as_array token1Addresses) as [token1s|e]; [|done].
  intros Hpass1.
  eapply forEach_res_invariant; [| |exact Hpass1].
  - intros acc x i acc' Hacc. unfold add_token1.
    destruct (output_toLowerCase x) as [lower|e]; [|done].
    destruct (includes supportedTokens lower) eqn:Hin; [|by intros [= <-]].
    intros [= <-]. apply H1; [done|]. by apply includes_elem_of.
  - eapply forEach_res_invariant; [| |exact Hpass0]; [|done].
    intros acc x i acc' Hacc. unfold add_token0.
    destruct (output_toLowerCase x) as [lower|e]; [|done].
    destruct (includes supportedTokens lower) eqn:Hin; [|by intros [= <-]].
    intros [= <-]. apply H0; [done|]. by apply includes_elem_of.
Qed.

(** X15.  Every balance call built by the adapter asks a supported token
    for the balance of a discovered pair: its target is an entry of the
    supported tokens, and its params is a pair address (or the key
    "undefined", when a token read has no pair address at its index). *)
Theorem balanceCalls_only_supported_tokens supportedTokens pairAddresses pairs
    token0Addresses token1Addresses tokenPairs :
  build_tokenPairs supportedTokens pairAddresses pairs token0Addresses token1Addresses
  = Ok tokenPairs →
  Forall (λ call, target call ∈ supportedTokens
                  ∧ ∃ pair, params call = ParamsAddress pair
                            ∧ (pair ∈ pairAddresses ∨ pair = "undefined"))
    (build_balanceCalls tokenPairs).
Proof.
  intros Hbuild. apply Forall_forall. intros call Hcall.
  assert (Forall (λ kv : string * PairRecord,
                    (∀ a, token0Address kv.2 = Some a → a ∈ supportedTokens)
                    ∧ (∀ a, token1Address kv.2 = Some a → a ∈ supportedTokens)
                    ∧ (kv.1 ∈ pairAddresses ∨ kv.1 = "undefined")) tokenPairs) as Hinv.
  { assert (∀ i, key_at pairAddresses i ∈ pairAddresses
                 ∨ key_at pairAddresses i = "undefined") as Hkey.
    { intros i. unfold key_at.
      destruct (pairAddresses !! i) eqn:Hi; [left | by right].
      by eapply list_elem_of_lookup_2. }
    eapply (build_tokenPairs_invariant _ _ _ _ _ _ _ _ _ _ Hbuild).
    Unshelve.
    - done.
    - intros acc lower i Hacc Hin. apply obj_set_Forall; [done|]. simpl.
      split; [by intros a [= <-]|]. split; [done | apply Hkey].
    - intros acc lower i Hacc Hin. apply obj_set_Forall; [done|]. simpl.
      split; [done|]. split; [by intros a [= <-] | apply Hkey]. }
  unfold build_balanceCalls in Hcall.
  apply list_elem_of_In, in_flat_map in Hcall as (pair & _ & Hcall).
  apply list_elem_of_In in Hcall.
  destruct (obj_get tokenPairs pair) as [rec|] eqn:Hget; [|by apply elem_of_nil in Hcall].
  apply obj_get_elem_of in Hget.
  rewrite Forall_forall in Hinv. destruct (Hinv _ Hget) as (H0 & H1 & Hpair).
  simpl in *.
  apply elem_of_app in Hcall as [Hcall|Hcall].
  - destruct (token0Address rec) as [a|]; simpl in Hcall;
      [|by apply elem_of_nil in Hcall].
    destruct (truthy_string a); [|by apply elem_of_nil in Hcall].
    apply list_elem_of_singleton in Hcall as ->. simpl.
    split; [by apply H0|]. by exists pair.
  - destruct (token1Address rec) as [a|]; simpl in Hcall;
      [|by apply elem_of_nil in Hcall].
    destruct (truthy_string a); [|by apply elem_of_nil in Hcall].
    apply list_elem_of_singleton in Hcall as ->. simpl.
    split; [by apply H1|]. by exists pair.
Qed.

(** X16.  With no supported token nothing is retained: the pair records
    stay empty and no balance call is built. *)
Theorem no_supported_token_no_balanceCall pairAddresses pairs
    token0Addresses token1Addresses tokenPairs :
  build_tokenPairs [] pairAddresses pairs token0Addresses token1Addresses = Ok tokenPairs →
  tokenPairs = [] ∧ build_balanceCalls tokenPairs = [].
Proof.
  intros Hbuild.
  assert (tokenPairs = []) as ->; [|done].
  eapply (build_tokenPairs_invariant (λ tp, tp = []) _ _ _ _ _ _ _ _ _ Hbuild).
  Unshelve.
  - done.
  - by intros acc lower i _ ?%elem_of_nil.
  - by intros acc lower i _ ?%elem_of_nil.
Qed.

Lemma balanceCalls_only_supported_tokens_witness :
  Forall (λ call, target call ∈ ["0xaa"]
                  ∧ ∃ pair, params call = ParamsAddress pair
                            ∧ (pair ∈ ["0xpair"] ∨ pair = "undefined"))
    (build_balanceCalls
       [("0xpair", {| token0Address := Some "0xaa"; token1Address := None |})]).
Proof.
  apply (balanceCalls_only_supported_tokens ["0xaa"] ["0xpair"]
           [OResult (OString "0xPAIR")]
           (OArray [OResult (OString "0xAA")]) (OArray [OResult (OString "0xBB")])).
  reflexivity.
Defined.

Lemma no_supported_token_no_balanceCall_witness :
  ([] : JsObject PairRecord) = [] ∧ build_balanceCalls [] = [].
Proof.
  apply (no_supported_token_no_balanceCall ["0xpair"] [OResult (OString "0xPAIR")]
           (OArray [OResult (OString "0xAA")]) (OArray [OResult (OString "0xBB")]) []).
  reflexivity.
Defined.

(** ** The adapter: what a pair retains *)

Section ObjectLookup.
Context {V : Type}.
Implicit Types (obj : JsObject V).

Lemma obj_get_set_eq obj key v : obj_get (obj_set obj key v) key = Some v.
Proof.
  induction obj as [|[k w] obj IH]; simpl.
  - by rewrite String.eqb_refl.
  - destruct (String.eqb_spec k key) as [->|Hne]; simpl.
    + by rewrite String.eqb_refl.
    + destruct (String.eqb_spec k key); [done | apply IH].
Qed.

Lemma obj_get_set_ne obj key key' v :
  key ≠ key' → obj_get (obj_set obj key v) key' = obj_get obj key'.
Proof.
  intros Hne. induction obj as [|[k w] obj IH]; simpl.
  - destruct (String.eqb_spec key key'); [done | done].
  - destruct (String.eqb_spec k key) as [->|Hk]; simpl.
    + destruct (String.eqb_spec key key'); [done | done].
    + destruct (String.eqb_spec k key'); [done | apply IH].
Qed.

End ObjectLookup.

Section Pass.
Variables (supportedTokens pairAddresses : list string).
Variable record_of : string → PairRecord.

Local Abbreviation pass :=
  (λ (tokenPairs : JsObject PairRecord) (tokenAddress : Output) (i : nat),
     match output_toLowerCase tokenAddress with
     | Throw e => Throw e
     | Ok lower =>
         if includes supportedTokens lower
         then Ok (obj_set tokenPairs (key_at pairAddresses i) (record_of lower))
         else Ok tokenPairs
     end).

(** One pass over well-formed token reads, the pair addresses being
    distinct: the record of a pair is replaced when its token is supported
    and left alone otherwise. *)
Lemma pass_lookup (tokens : list string) i0 tokenPairs :
  NoDup pairAddresses →
  i0 + length tokens ≤ length pairAddresses →
  ∃ tokenPairs',
    forEach_res pass ((λ s, OResult (OString s)) <$> tokens) i0 tokenPairs = Ok tokenPairs'
    ∧ (∀ j s p, tokens !! j = Some s → pairAddresses !! (i0 + j) = Some p →
         obj_get tokenPairs' p
         = if includes supportedTokens (toLowerCase s)
           then Some (record_of (toLowerCase s))
           else obj_get tokenPairs p)
    ∧ (∀ key, (∀ j, j < length tokens → pairAddresses !! (i0 + j) ≠ Some key) →
         obj_get tokenPairs' key = obj_get tokenPairs key).
Proof.
  intros Hnodup. revert i0 tokenPairs.
  induction tokens as [|s tokens IH]; intros i0 tokenPairs Hlen.
  - exists tokenPairs. split; [done|]. split; [|done].
    intros j s p Hs. by rewrite lookup_nil in Hs.
  - simpl in Hlen. cbn [fmap list_fmap forEach_res output_toLowerCase].
    destruct (lookup_lt_is_Some_2 pairAddresses i0) as [p0 Hp0]; [lia|].
    assert (key_at pairAddresses i0 = p0) as Hkey by (unfold key_at; by rewrite Hp0).
    set (tokenPairs1 := if includes supportedTokens (toLowerCase s)
                        then obj_set tokenPairs (key_at pairAddresses i0)
                               (record_of (toLowerCase s))
                        else tokenPairs).
    assert ((if includes supportedTokens (toLowerCase s)
             then Ok (obj_set tokenPairs (key_at pairAddresses i0)
                        (record_of (toLowerCase s)))
             else Ok tokenPairs) = Ok tokenPairs1) as ->.
    { unfold tokenPairs1. by destruct (includes _ _). }
    destruct (IH (S i0) tokenPairs1) as (tokenPairs' & Hrun & Hget & Hother); [lia|].
    assert (∀ key, key ≠ p0 → obj_get tokenPairs1 key = obj_get tokenPairs key) as Hne.
    { intros key Hkp. unfold tokenPairs1.
      destruct (includes _ _); [|done]. rewrite Hkey. by apply obj_get_set_ne. }
    exists tokenPairs'. split; [done|]. split.
    + intros [|j] s' p Hs Hp.
      * simpl in Hs. injection Hs as <-. rewrite Nat.add_0_r, Hp0 in Hp.
        injection Hp as <-. rewrite Hother.
        -- unfold tokenPairs1. destruct (includes _ _); [|done].
           rewrite Hkey. apply obj_get_set_eq.
        -- intros j _ Hj.
           pose proof (NoDup_lookup _ _ _ _ Hnodup Hp0 Hj). lia.
      * simpl in Hs. replace (i0 + S j) with (S i0 + j) in Hp by lia.
        rewrite (Hget j s' p Hs Hp).
        destruct (includes supportedTokens (toLowerCase s')); [done|].
        apply Hne. intros ->.
        pose proof (NoDup_lookup _ _ _ _ Hnodup Hp0 Hp). lia.
    + intros key Hkey'. rewrite Hother.
      * apply Hne. intros ->. apply (Hkey' 0); [simpl; lia|].
        by rewrite Nat.add_0_r.
      * intros j Hj. replace (S i0 + j) with (i0 + S j) by lia.
        apply Hkey'. simpl. lia.
Qed.

End Pass.

(** X17.  What a pair retains, when the pair addresses are distinct and
    the token reads are strings, one per pair.  A pair whose token1 is
    supported has a record with that token as [token1Address]; a pair whose
    token1 is not supported has the record [{ token0Address }] when its
    token0 is supported, and no record at all when it is not. *)
Theorem pair_record_by_support supportedTokens pairAddresses pairs
    (token0s token1s : list string) :
  NoDup pairAddresses →
  length token0s ≤ length pairAddresses →
  length token1s ≤ length pairAddresses →
  ∃ tokenPairs,
    build_tokenPairs supportedTokens pairAddresses pairs
      (OArray ((λ s, OResult (OString s)) <$> token0s))
      (OArray ((λ s, OResult (OString s)) <$> token1s))
    = Ok tokenPairs
    ∧ ∀ i pair token0 token1,
        pairAddresses !! i = Some pair →
        token0s !! i = Some token0 →
        token1s !! i = Some token1 →
        (includes supportedTokens (toLowerCase token1) = true →
           ∃ record, obj_get tokenPairs pair = Some record
                     ∧ token1Address record = Some (toLowerCase token1))
        ∧ (includes supportedTokens (toLowerCase token1) = false →
             obj_get tokenPairs pair
             = if includes supportedTokens (toLowerCase token0)
               then Some {| token0Address := Some (toLowerCase token0);
                            token1Address := None |}
               else None).
Proof.
  intros Hnodup Hlen0 Hlen1. unfold build_tokenPairs. cbn [as_array].
  destruct (pass_lookup supportedTokens pairAddresses
              (λ lower, {| token0Address := Some lower; token1Address := None |})
              token0s 0 [] Hnodup) as (tp0 & Hrun0 & Hget0 & _); [simpl; lia|].
  destruct (pass_lookup supportedTokens pairAddresses
              (λ lower, {| token0Address := None; token1Address := Some lower |})
              token1s 0 tp0 Hnodup) as (tp1 & Hrun1 & Hget1 & _); [simpl; lia|].
  change (forEach_res (add_token0 supportedTokens pairAddresses)
            ((λ s, OResult (OString s)) <$> token0s) 0 [] = Ok tp0) in Hrun0.
  change (forEach_res (add_token1 supportedTokens pairAddresses pairs)
            ((λ s, OResult (OString s)) <$> token1s) 0 tp0 = Ok tp1) in Hrun1.
  rewrite Hrun0, Hrun1. exists tp1. split; [done|].
  intros i pair token0 token1 Hpair Ht0 Ht1.
  rewrite (Hget1 i token1 pair Ht1 Hpair), (Hget0 i token0 pair Ht0 Hpair). simpl.
  split.
  - intros ->. by eexists.
  - by intros ->.
Qed.

Lemma pair_record_by_support_witness :
  ∃ tokenPairs,
    build_tokenPairs ["0xaa"] ["0xp"; "0xq"] []
      (OArray ((λ s, OResult (OString s)) <$> ["0xAA"; "0xCC"]))
      (OArray ((λ s, OResult (OString s)) <$> ["0xBB"; "0xDD"]))
    = Ok tokenPairs
    ∧ ∀ i pair token0 token1,
        ["0xp"; "0xq"] !! i = Some pair →
        ["0xAA"; "0xCC"] !! i = Some token0 →
        ["0xBB"; "0xDD"] !! i = Some token1 →
        (includes ["0xaa"] (toLowerCase token1) = true →
           ∃ record, obj_get tokenPairs pair = Some record
                     ∧ token1Address record = Some (toLowerCase token1))
        ∧ (includes ["0xaa"] (toLowerCase token1) = false →
             obj_get tokenPairs pair
             = if includes ["0xaa"] (toLowerCase token0)
               then Some {| token0Address := Some (toLowerCase token0);
                            token1Address := None |}
               else None).
Proof.
  apply (pair_record_by_support ["0xaa"] ["0xp"; "0xq"] []
           ["0xAA"; "0xCC"] ["0xBB"; "0xDD"]).
  - apply (bool_decide_unpack _). vm_compute. exact I.
  - simpl. lia.
  - simpl. lia.
Defined.

(** ** The adapter: its requests *)

Lemma POST_requests_shape env axios_post pick utility_sum endpoint options r log :
  POST env axios_post pick utility_sum endpoint options = Some (r, log) →
  Forall (λ req : Request,
            req.1 = post_url env endpoint
            ∧ (req.2 = options
               ∨ ∃ o ch, options = Some o ∧ req.2 = Some (set_batch o ch))) log.
Proof.
  intros HPOST.
  assert (requests (POST env axios_post pick utility_sum endpoint options) = Some log)
    as Hlog by (by rewrite HPOST).
  clear HPOST. unfold POST in Hlog. rewrite POST_fuel_unfold in Hlog.
  destruct (chunking options) as [[[[o c] l]|]|e] eqn:Hch.
  - rewrite lift_Ok_bind, requests_try_catch, requests_bind_mret in Hlog.
    destruct (schedule_all_requests pick c
                (λ ch, POST_fuel env axios_post pick utility_sum 1 endpoint
                         (Some (set_batch o ch)))
                (λ ch, answer env axios_post endpoint (Some (set_batch o ch)))
                (λ ch, [(post_url env endpoint, Some (set_batch o ch))])
                env (_chunk l (chunk_length c))) as (k & r' & Hrun & _).
    { apply Forall_forall. intros ch Hin. apply POST_fuel_leaf.
      by eapply chunk_not_rechunked. }
    rewrite Hrun in Hlog. injection Hlog as <-.
    apply chunking_Some in Hch as (-> & _).
    generalize (take k (_chunk l (chunk_length c))). intros chs.
    induction chs as [|ch chs IH]; simpl; constructor; [|done].
    split; [done|]. right. by exists o, ch.
  - rewrite lift_Ok_bind, requests_try_catch in Hlog. injection Hlog as <-.
    constructor; [|done]. by split; [|left].
  - injection Hlog as <-. done.
Qed.

Section AdapterRequests.
Variable env : Env.
Variable axios_post : string → option Options → Res Data.
Variable pick : nat → nat.
Variable utility_sum : list Output → Output.
Variable sumMultiBalanceOf :
  gmap string BalanceValue → Data → Res (gmap string BalanceValue).
Variable Number_length : Output → option nat.
Variable block : option Z.

Local Abbreviation pinned :=
  (λ req : Request,
     req = (post_url env "/util/supportedTokens", None)
     ∨ ∃ o, req.2 = Some o ∧ opt_block o = block ∧ opt_chain o = Some "polygon"
            ∧ (req.1 = post_url env "/abi/call" ∨ req.1 = post_url env "/abi/multiCall")).
Local Abbreviation sends :=
  (λ (A : Type) (m : M A), ∀ r log, m = Some (r, log) → Forall pinned log).

Lemma sends_bind {A B} (m : M A) (f : A → M B) :
  sends A m → (∀ a, sends B (f a)) → sends B (m ≫= f).
Proof.
  intros Hm Hf r log. unfold mbind, M_bind, bind.
  destruct m as [[[a|e] log1]|]; [| |done].
  - destruct (f a) as [[r2 log2]|] eqn:Hfa; [|done].
    intros [= <- <-]. apply Forall_app. split; [by eapply Hm | by eapply Hf].
  - intros [= <- <-]. by eapply Hm.
Qed.

Lemma sends_lift {A} (r : Res A) : sends A (lift r).
Proof. by intros r' log [= <- <-]. Qed.

Lemma sends_supportedTokens :
  sends Data (supportedTokens_endpoint env axios_post pick utility_sum).
Proof.
  intros r log HPOST. unfold supportedTokens_endpoint in HPOST.
  apply POST_requests_shape in HPOST.
  eapply Forall_impl; [exact HPOST|].
  intros [url body] [Hurl Hor].
  destruct Hor as [Hbody|(o & ch & Heq & _)]; [|discriminate Heq].
  cbn [fst snd] in *. left. by subst.
Qed.

Lemma sends_abi_call :
  sends Data (abi_call env axios_post pick utility_sum (allPairsLength_options block)).
Proof.
  intros r log HPOST. unfold abi_call in HPOST.
  apply POST_requests_shape in HPOST.
  eapply Forall_impl; [exact HPOST|].
  intros [url body] [Hurl Hor]. cbn [fst snd] in *. right.
  destruct Hor as [Hbody|(o & ch & Heq & Hbody)].
  - eexists. split; [exact Hbody|]. auto.
  - injection Heq as <-. eexists. split; [exact Hbody|]. auto.
Qed.

Lemma sends_abi_multiCall abi calls :
  sends Data (abi_multiCall env axios_post pick utility_sum
                (multiCall_options abi calls block)).
Proof.
  intros r log HPOST. unfold abi_multiCall in HPOST.
  apply POST_requests_shape in HPOST.
  eapply Forall_impl; [exact HPOST|].
  intros [url body] [Hurl Hor]. cbn [fst snd] in *. right.
  destruct Hor as [Hbody|(o & ch & Heq & Hbody)].
  - eexists. split; [exact Hbody|]. auto.
  - injection Heq as <-. eexists. split; [exact Hbody|]. auto.
Qed.

Lemma sends_sum_balanceCallChunks chunks balances :
  sends _ (sum_balanceCallChunks env axios_post pick utility_sum sumMultiBalanceOf
             block chunks balances).
Proof.
  revert balances. induction chunks as [|ch chunks IH]; intros balances.
  - by intros r log [= <- <-].
  - cbn [sum_balanceCallChunks].
    apply sends_bind; [apply sends_abi_multiCall|]. intros tokenBalances.
    apply sends_bind; [apply sends_lift|]. intros balances'. apply IH.
Qed.

(** X18.  Whatever the service answers, and whether [tvl] fulfils or
    rejects, every request it has issued is either the read of the token
    list or a read on chain 'polygon' at the block [tvl] was called with,
    sent to /abi/call or /abi/multiCall. *)
Theorem tvl_requests_at_block timestamp r log :
  tvl env axios_post pick utility_sum sumMultiBalanceOf Number_length timestamp block
  = Some (r, log) →
  Forall (λ req : Request,
            req = (post_url env "/util/supportedTokens", None)
            ∨ ∃ o, req.2 = Some o ∧ opt_block o = block
                   ∧ opt_chain o = Some "polygon"
                   ∧ (req.1 = post_url env "/abi/call"
                      ∨ req.1 = post_url env "/abi/multiCall")) log.
Proof.
  revert r log. unfold tvl.
  apply sends_bind; [|by intros balances r log [= <- <-]].
  unfold tvl_balances.
  apply sends_bind.
  { unfold read_supportedTokens. apply sends_bind; [apply sends_supportedTokens|].
    intros [tokens|res]; by intros r log [= <- <-]. }
  intros supportedTokens. apply sends_bind.
  { unfold read_pairNums. apply sends_bind; [apply sends_abi_call|].
    intros d. destruct (data_output d); try (by intros r log [= <- <-]);
      destruct (Number_length _); by intros r log [= <- <-]. }
  intros pairNums. apply sends_bind; [apply sends_abi_multiCall|].
  intros r0. apply sends_bind; [apply sends_lift|].
  intros pairs. apply sends_bind; [apply sends_lift|].
  intros pairAddresses. cbv zeta.
  apply sends_bind; [apply sends_abi_multiCall|].
  intros r1. apply sends_bind; [apply sends_abi_multiCall|].
  intros r2. apply sends_bind; [apply sends_lift|].
  intros tokenPairs. apply sends_bind; [apply sends_lift|].
  intros _. apply sends_sum_balanceCallChunks.
Qed.

End AdapterRequests.

Lemma tvl_requests_at_block_witness :
  Forall (λ req : Request,
            req = (post_url Run.env1 "/util/supportedTokens", None)
            ∨ ∃ o, req.2 = Some o ∧ opt_block o = Some 100%Z
                   ∧ opt_chain o = Some "polygon"
                   ∧ (req.1 = post_url Run.env1 "/abi/call"
                      ∨ req.1 = post_url Run.env1 "/abi/multiCall"))
    [(post_url Run.env1 "/util/supportedTokens", None);
     (post_url Run.env1 "/abi/call", Some (allPairsLength_options (Some 100%Z)))].
Proof.
  apply (tvl_requests_at_block Run.env1 (Run.dfyn [Run.token "0xaa"] ONull)
           Run.in_order Run.no_sum Run.keep Run.Number_length (Some 100%Z) 0
           (Throw (Error "allPairsLength() failed"))).
  reflexivity.
Defined.

(** ** The adapter: its result *)

(** X19.  [tvl] never fulfils with an empty mapping: what it returns is
    either the non-empty mapping accumulated over the chunks or the zero
    address mapped to 0. *)
Theorem tvl_result_not_empty env axios_post pick utility_sum sumMultiBalanceOf
    Number_length timestamp block balances :
  settled (tvl env axios_post pick utility_sum sumMultiBalanceOf Number_length
             timestamp block) = Some (Ok balances) →
  balances ≠ ∅
  ∧ (balances = {[ ZERO_ADDRESS := BNumber 0 ]}
     ∨ settled (tvl_balances env axios_post pick utility_sum sumMultiBalanceOf
                  Number_length timestamp block) = Some (Ok balances)).
Proof.
  unfold tvl.
  destruct (tvl_balances _ _ _ _ _ _ _ _) as [[[b|e] log]|]; [|done..].
  simpl. intros [= <-].
  destruct (decide (b = ∅)) as [->|Hne].
  - rewrite or_zero_address_empty. split; [|by left].
    apply insert_non_empty.
  - rewrite or_zero_address_nonempty by done. split; [done | by right].
Qed.

Lemma tvl_result_not_empty_witness :
  ({[ ZERO_ADDRESS := BNumber 0 ]} : gmap string BalanceValue) ≠ ∅
  ∧ (({[ ZERO_ADDRESS := BNumber 0 ]} : gmap string BalanceValue)
     = {[ ZERO_ADDRESS := BNumber 0 ]}
     ∨ settled (tvl_balances Run.env1 (Run.dfyn [] (OString "1")) Run.in_order
                  Run.no_sum Run.keep Run.Number_length 0 None)
       = Some (Ok {[ ZERO_ADDRESS := BNumber 0 ]})).
Proof.
  apply (tvl_result_not_empty Run.env1 (Run.dfyn [] (OString "1")) Run.in_order
           Run.no_sum Run.keep Run.Number_length 0 None).
  vm_compute. reflexivity.
Defined.

(** X20.  The chunks of 2500 balance calls are below the 5000 calls at
    which [multiCall] starts chunking: each chunk of the adapter is sent in
    exactly one request, carrying the whole chunk, and settles to the answer
    of that request. *)
Theorem balance_chunk_one_request env axios_post pick utility_sum
    (balanceCalls balanceCall : list Call) block :
  balanceCall ∈ make_balanceCallChunks 2500 balanceCalls →
  ∃ options,
    batch options = Some balanceCall
    ∧ abi_multiCall env axios_post pick utility_sum
        (multiCall_options "erc20:balanceOf" balanceCall block)
      = Some (answer env axios_post "/abi/multiCall" (Some options),
              [(post_url env "/abi/multiCall", Some options)]).
Proof.
  intros Hin. eexists. split; [|unfold abi_multiCall, POST; apply POST_fuel_leaf].
  - reflexivity.
  - rewrite make_balanceCallChunks_chunk_loop in Hin.
    assert (Forall (λ c : list Call, 1 ≤ length c ≤ 2500)
              (chunk_loop (length balanceCalls) balanceCalls 2500 0 [])) as Hb
      by (apply chunk_loop_bounds; [lia | done]).
    rewrite Forall_forall in Hb. destruct (Hb _ Hin) as [_ Hle].
    unfold chunking. cbn [chunk batch multiCall_options chunk_length].
    destruct (Z.ltb_spec 5000 (Z.of_nat (length balanceCall))); [lia | done].
Qed.

Lemma balance_chunk_one_request_witness :
  ∃ options,
    batch options = Some [Run.call "a"]
    ∧ abi_multiCall Run.env1 Run.echo Run.in_order Run.no_sum
        (multiCall_options "erc20:balanceOf" [Run.call "a"] None)
      = Some (answer Run.env1 Run.echo "/abi/multiCall" (Some options),
              [(post_url Run.env1 "/abi/multiCall", Some options)]).
Proof.
  apply (balance_chunk_one_request Run.env1 Run.echo Run.in_order Run.no_sum
           [Run.call "a"] [Run.call "a"] None).
  vm_compute. apply list_elem_of_here.
Defined.

(** ** The adapter: letter case *)

(** C7, amended.  The allow-list is used as supplied: only the address read
    from the chain is lower-cased before it is looked up, by string
    equality, in the allow-list.  With distinct pair addresses and string
    token reads, this is what the final record of a pair retains.  A token1
    that differs only in letter case from an allow-list entry which is
    itself in lower case is retained as [token1Address]; so is such a
    token0 as [token0Address], when the pair's token1 is not supported.  A
    pair neither of whose lower-cased tokens is literally in the allow-list
    has no record. *)
Theorem token_retained_up_to_its_case supportedTokens pairAddresses pairs
    (token0s token1s : list string) :
  NoDup pairAddresses →
  length token0s ≤ length pairAddresses →
  length token1s ≤ length pairAddresses →
  ∃ tokenPairs,
    build_tokenPairs supportedTokens pairAddresses pairs
      (OArray ((λ s, OResult (OString s)) <$> token0s))
      (OArray ((λ s, OResult (OString s)) <$> token1s))
    = Ok tokenPairs
    ∧ ∀ i pair token0 token1,
        pairAddresses !! i = Some pair →
        token0s !! i = Some token0 →
        token1s !! i = Some token1 →
        (∀ entry, entry ∈ supportedTokens → toLowerCase entry = entry →
           toLowerCase token1 = toLowerCase entry →
           ∃ record, obj_get tokenPairs pair = Some record
                     ∧ token1Address record = Some entry)
        ∧ (∀ entry, entry ∈ supportedTokens → toLowerCase entry = entry →
             toLowerCase token0 = toLowerCase entry →
             toLowerCase token1 ∉ supportedTokens →
             obj_get tokenPairs pair
             = Some {| token0Address := Some entry; token1Address := None |})
        ∧ (toLowerCase token0 ∉ supportedTokens →
           toLowerCase token1 ∉ supportedTokens →
           obj_get tokenPairs pair = None).
Proof.
  intros Hnodup Hlen0 Hlen1. unfold build_tokenPairs. cbn [as_array].
  destruct (pass_lookup supportedTokens pairAddresses
              (λ lower, {| token0Address := Some lower; token1Address := None |})
              token0s 0 [] Hnodup) as (tp0 & Hrun0 & Hget0 & _); [simpl; lia|].
  destruct (pass_lookup supportedTokens pairAddresses
              (λ lower, {| token0Address := None; token1Address := Some lower |})
              token1s 0 tp0 Hnodup) as (tp1 & Hrun1 & Hget1 & _); [simpl; lia|].
  change (forEach_res (add_token0 supportedTokens pairAddresses)
            ((λ s, OResult (OString s)) <$> token0s) 0 [] = Ok tp0) in Hrun0.
  change (forEach_res (add_token1 supportedTokens pairAddresses pairs)
            ((λ s, OResult (OString s)) <$> token1s) 0 tp0 = Ok tp1) in Hrun1.
  rewrite Hrun0, Hrun1. exists tp1. split; [done|].
  intros i pair token0 token1 Hpair Ht0 Ht1.
  rewrite (Hget1 i token1 pair Ht1 Hpair), (Hget0 i token0 pair Ht0 Hpair). simpl.
  assert (∀ x, x ∉ supportedTokens → includes supportedTokens x = false) as Hout.
  { intros x Hx. destruct (includes supportedTokens x) eqn:Hin; [|done].
    by apply includes_elem_of in Hin. }
  split; [|split].
  - intros entry Hentry Hlower Hcase. rewrite Hlower in Hcase.
    apply includes_elem_of in Hentry. rewrite Hcase, Hentry. by eexists.
  - intros entry Hentry Hlower Hcase Hnot1. rewrite Hlower in Hcase.
    apply includes_elem_of in Hentry. by rewrite (Hout _ Hnot1), Hcase, Hentry.
  - intros Hnot0 Hnot1. by rewrite (Hout _ Hnot1), (Hout _ Hnot0).
Qed.

Lemma token_retained_up_to_its_case_witness :
  ∃ tokenPairs,
    build_tokenPairs ["0xaa"] ["0xp"; "0xq"; "0xr"] []
      (OArray ((λ s, OResult (OString s)) <$> ["0xAA"; "0xCC"; "0xCC"]))
      (OArray ((λ s, OResult (OString s)) <$> ["0xBB"; "0xAa"; "0xDD"]))
    = Ok tokenPairs
    ∧ ∀ i pair token0 token1,
        ["0xp"; "0xq"; "0xr"] !! i = Some pair →
        ["0xAA"; "0xCC"; "0xCC"] !! i = Some token0 →
        ["0xBB"; "0xAa"; "0xDD"] !! i = Some token1 →
        (∀ entry, entry ∈ ["0xaa"] → toLowerCase entry = entry →
           toLowerCase token1 = toLowerCase entry →
           ∃ record, obj_get tokenPairs pair = Some record
                     ∧ token1Address record = Some entry)
        ∧ (∀ entry, entry ∈ ["0xaa"] → toLowerCase entry = entry →
             toLowerCase token0 = toLowerCase entry →
             toLowerCase token1 ∉ ["0xaa"] →
             obj_get tokenPairs pair
             = Some {| token0Address := Some entry; token1Address := None |})
        ∧ (toLowerCase token0 ∉ ["0xaa"] →
           toLowerCase token1 ∉ ["0xaa"] →
           obj_get tokenPairs pair = None).
Proof.
  apply (token_retained_up_to_its_case ["0xaa"] ["0xp"; "0xq"; "0xr"] []
           ["0xAA"; "0xCC"; "0xCC"] ["0xBB"; "0xAa"; "0xDD"]).
  - apply (bool_decide_unpack _). vm_compute. exact I.
  - simpl. lia.
  - simpl. lia.
Defined.
